(** * RewardPicker (src/App.tsx): state, persistence and history log

    A shallow embedding of the [App] component of [src/App.tsx]:

    - JavaScript strings are sequences of UTF-16 code units ([jsstring]);
    - the values [JSON.parse] returns and [JSON.stringify] prints are the
      inductive type [json]; the [history] state holds such a value, since
      the cast [as HistoryEntry[]] of the initializer is erased at run time;
    - [window.localStorage] is a finite map from keys to strings, and
      [window] itself may be undefined;
    - an event handler is the list of the calls it makes ([setX(...)],
      [localStorage.removeItem(...)]); React applies the queued state updates
      after the handler returns, renders, and then runs the effect that
      depends on [history] when that state was set. *)

From Stdlib Require Import ZArith NArith QArith Qround List Ascii Lia.
From Stdlib Require Import DecimalN DecimalZ DecimalPos DecimalFacts.
From stdpp Require Import base option list gmap strings.

Local Open Scope N_scope.

(** ** JavaScript strings *)

(** A string is a sequence of 16-bit code units. *)
Abbreviation jsstring := (list N).

(** The code units of an ASCII literal of the source. *)
Definition js (s : string) : jsstring :=
  map N_of_ascii (String.list_ascii_of_string s).

Definition ch (a : ascii) : N := N_of_ascii a.

Definition is_high_surrogate (c : N) : bool := (55296 <=? c) && (c <=? 56319).
Definition is_low_surrogate (c : N) : bool := (56320 <=? c) && (c <=? 57343).

(** [String.prototype.slice(n)] for [0 <= n]. *)
Definition slice_from (n : nat) (s : jsstring) : jsstring := drop n s.

(** The string iterator, used by the spread [...prev] when [prev] is a
    string: it yields code points, a surrogate pair as one string. *)
Fixpoint code_points (s : jsstring) : list jsstring :=
  match s with
  | [] => []
  | c :: r =>
      match r with
      | d :: r' =>
          if is_high_surrogate c && is_low_surrogate d
          then [c; d] :: code_points r'
          else [c] :: code_points r
      | [] => [[c]]
      end
  end.

(** ** Decimal numerals *)

Definition digit_unit (k : N) : N := 48 + k.

Fixpoint uint_units (d : Decimal.uint) : jsstring :=
  match d with
  | Decimal.Nil => []
  | Decimal.D0 d => digit_unit 0 :: uint_units d
  | Decimal.D1 d => digit_unit 1 :: uint_units d
  | Decimal.D2 d => digit_unit 2 :: uint_units d
  | Decimal.D3 d => digit_unit 3 :: uint_units d
  | Decimal.D4 d => digit_unit 4 :: uint_units d
  | Decimal.D5 d => digit_unit 5 :: uint_units d
  | Decimal.D6 d => digit_unit 6 :: uint_units d
  | Decimal.D7 d => digit_unit 7 :: uint_units d
  | Decimal.D8 d => digit_unit 8 :: uint_units d
  | Decimal.D9 d => digit_unit 9 :: uint_units d
  end.

Definition int_units (i : Decimal.int) : jsstring :=
  match i with
  | Decimal.Pos d => uint_units d
  | Decimal.Neg d => ch "-" :: uint_units d
  end.

(** [Number.prototype.toString] on an integer: what a template literal
    [`${n}`] and [JSON.stringify] print. *)
Definition number_to_string (z : Z) : jsstring := int_units (Z.to_int z).

Definition digit_of (c : N) : option (Decimal.uint -> Decimal.uint) :=
  match c with
  | 48 => Some Decimal.D0
  | 49 => Some Decimal.D1
  | 50 => Some Decimal.D2
  | 51 => Some Decimal.D3
  | 52 => Some Decimal.D4
  | 53 => Some Decimal.D5
  | 54 => Some Decimal.D6
  | 55 => Some Decimal.D7
  | 56 => Some Decimal.D8
  | 57 => Some Decimal.D9
  | _ => None
  end.

(** The longest run of decimal digits at the head of [s]. *)
Fixpoint read_digits (s : jsstring) : Decimal.uint * jsstring :=
  match s with
  | [] => (Decimal.Nil, [])
  | c :: r =>
      match digit_of c with
      | Some D => let (d, r') := read_digits r in (D d, r')
      | None => (Decimal.Nil, s)
      end
  end.

(** ** Hexadecimal escapes *)

Definition hex_unit (k : N) : N := if k <? 10 then 48 + k else 87 + k.

(** The four lower-case hexadecimal digits of a code unit. *)
Definition hex4 (c : N) : jsstring :=
  [hex_unit (c / 4096 mod 16); hex_unit (c / 256 mod 16);
   hex_unit (c / 16 mod 16); hex_unit (c mod 16)].

Definition hex_of (c : N) : option N :=
  if (48 <=? c) && (c <=? 57) then Some (c - 48)
  else if (97 <=? c) && (c <=? 102) then Some (c - 87)
  else if (65 <=? c) && (c <=? 70) then Some (c - 55)
  else None.

Definition read_hex4 (a b c d : N) : option N :=
  match hex_of a, hex_of b, hex_of c, hex_of d with
  | Some x, Some y, Some z, Some w => Some (((x * 16 + y) * 16 + z) * 16 + w)
  | _, _, _, _ => None
  end.

(** ** JSON values *)

#[local] Set Warnings "-register-all".

(** What [JSON.parse] returns. A number is a double in JavaScript; the
    integers (card numbers, epoch milliseconds) are modelled by [Z], exact
    within [Number.MAX_SAFE_INTEGER]: beyond it the code holds the nearest
    double, or Infinity, where [JNum] holds the integer read. A numeral with
    a fraction or an exponent is kept as the decimal numeral that was read
    ([JDec]), not as the double it denotes. The statements below that depend
    on numbers are about safe integers. An object is the list of its own
    properties in enumeration order. *)
Inductive json : Type :=
  | JNull
  | JBool (b : bool)
  | JNum (z : Z)
  | JDec (d : Decimal.decimal)
  | JStr (s : jsstring)
  | JArr (l : list json)
  | JObj (m : list (jsstring * json)).

Inductive result (A : Type) : Type :=
  | Ok (a : A)
  | SyntaxError
  | OutOfFuel.
Arguments Ok {A} a.
Arguments SyntaxError {A}.
Arguments OutOfFuel {A}.

Module JSON.

Definition QUOTE : N := 34.
Definition BACKSLASH : N := 92.

(** *** Printing: [JSON.stringify] *)

Definition escape_unit (c : N) : jsstring := BACKSLASH :: ch "u" :: hex4 c.

(** One code unit inside a string literal (the table of QuoteJSONString). *)
Definition quote_unit (c : N) : jsstring :=
  if c =? 8 then [BACKSLASH; ch "b"]
  else if c =? 9 then [BACKSLASH; ch "t"]
  else if c =? 10 then [BACKSLASH; ch "n"]
  else if c =? 12 then [BACKSLASH; ch "f"]
  else if c =? 13 then [BACKSLASH; ch "r"]
  else if c =? QUOTE then [BACKSLASH; QUOTE]
  else if c =? BACKSLASH then [BACKSLASH; BACKSLASH]
  else if c <? 32 then escape_unit c
  else [c].

(** A surrogate pair is printed as it is, a lone surrogate as an escape. *)
Fixpoint quote_units (s : jsstring) : jsstring :=
  match s with
  | [] => []
  | c :: r =>
      if is_high_surrogate c then
        match r with
        | d :: r' =>
            if is_low_surrogate d then c :: d :: quote_units r'
            else escape_unit c ++ quote_units r
        | [] => escape_unit c
        end
      else if is_low_surrogate c then escape_unit c ++ quote_units r
      else quote_unit c ++ quote_units r
  end.

Definition quote (s : jsstring) : jsstring :=
  QUOTE :: quote_units s ++ [QUOTE].

Definition commas (l : list jsstring) : jsstring :=
  match l with
  | [] => []
  | x :: r => x ++ flat_map (fun y => ch "," :: y) r
  end.

(** A numeral kept as read is printed as read, where the code prints the
    shortest form of its double. *)
Definition decimal_units (d : Decimal.decimal) : jsstring :=
  let point f :=
    match f with
    | Decimal.Nil => []
    | _ => ch "." :: uint_units f
    end in
  match d with
  | Decimal.Decimal i f => int_units i ++ point f
  | Decimal.DecimalExp i f e => int_units i ++ point f ++ ch "e" :: int_units e
  end.

Fixpoint stringify (v : json) : jsstring :=
  match v with
  | JNull => js "null"
  | JBool true => js "true"
  | JBool false => js "false"
  | JNum z => number_to_string z
  | JDec d => decimal_units d
  | JStr s => quote s
  | JArr l => ch "[" :: commas (map stringify l) ++ [ch "]"]
  | JObj m =>
      ch "{" ::
      commas (map (fun kv => quote (fst kv) ++ ch ":" :: stringify (snd kv)) m)
      ++ [ch "}"]
  end.

(** *** Reading: [JSON.parse] *)

Definition is_ws (c : N) : bool :=
  (c =? 32) || (c =? 9) || (c =? 10) || (c =? 13).

Fixpoint skip_ws (s : jsstring) : jsstring :=
  match s with
  | [] => []
  | c :: r => if is_ws c then skip_ws r else s
  end.

Definition unescape (e : N) : option N :=
  if e =? QUOTE then Some QUOTE
  else if e =? BACKSLASH then Some BACKSLASH
  else if e =? ch "/" then Some (ch "/")
  else if e =? ch "b" then Some 8
  else if e =? ch "f" then Some 12
  else if e =? ch "n" then Some 10
  else if e =? ch "r" then Some 13
  else if e =? ch "t" then Some 9
  else None.

(** The characters of a string literal, after its opening quote, up to
    and including the closing one. *)
Fixpoint parse_chars (s : jsstring) : option (jsstring * jsstring) :=
  match s with
  | [] => None
  | c :: r =>
      if c =? QUOTE then Some ([], r)
      else if c =? BACKSLASH then
        match r with
        | [] => None
        | e :: r1 =>
            if e =? ch "u" then
              match r1 with
              | h1 :: h2 :: h3 :: h4 :: r2 =>
                  match read_hex4 h1 h2 h3 h4 with
                  | Some u =>
                      match parse_chars r2 with
                      | Some (str, rest) => Some (u :: str, rest)
                      | None => None
                      end
                  | None => None
                  end
              | _ => None
              end
            else
              match unescape e with
              | Some u =>
                  match parse_chars r1 with
                  | Some (str, rest) => Some (u :: str, rest)
                  | None => None
                  end
              | None => None
              end
        end
      else if c <? 32 then None
      else
        match parse_chars r with
        | Some (str, rest) => Some (c :: str, rest)
        | None => None
        end
  end.

Definition read_sign (s : jsstring) : bool * jsstring :=
  match s with
  | c :: r => if c =? ch "-" then (true, r) else (false, s)
  | [] => (false, s)
  end.

Definition signed (neg : bool) (d : Decimal.uint) : Decimal.int :=
  if neg then Decimal.Neg d else Decimal.Pos d.

(** The optional fraction: [None] is a point that no digit follows. *)
Definition read_frac (s : jsstring) : option (option Decimal.uint * jsstring) :=
  match s with
  | c :: r =>
      if c =? ch "." then
        match read_digits r with
        | (Decimal.Nil, _) => None
        | (f, r') => Some (Some f, r')
        end
      else Some (None, s)
  | [] => Some (None, s)
  end.

Definition read_exp_sign (s : jsstring) : bool * jsstring :=
  match s with
  | c :: r =>
      if c =? ch "+" then (false, r)
      else if c =? ch "-" then (true, r)
      else (false, s)
  | [] => (false, s)
  end.

(** The optional exponent: [None] is an [e] that no digit follows. *)
Definition read_exp (s : jsstring) : option (option Decimal.int * jsstring) :=
  match s with
  | c :: r =>
      if (c =? ch "e") || (c =? ch "E") then
        let (neg, r1) := read_exp_sign r in
        match read_digits r1 with
        | (Decimal.Nil, _) => None
        | (e, r2) => Some (Some (signed neg e), r2)
        end
      else Some (None, s)
  | [] => Some (None, s)
  end.

(** A numeral: an optional minus sign, an integer part (a single 0, or
    digits that start with a non-zero one), an optional fraction (a point
    and digits) and an optional exponent (e or E, a sign, digits).
    The integer part is the whole run of digits; a run with a leading zero
    fails here (in the grammar the digit after the [0] is the unexpected
    token, which fails in every context). *)
Definition parse_number (s : jsstring) : option (json * jsstring) :=
  let (neg, s1) := read_sign s in
  let (d, s2) := read_digits s1 in
  if Decimal.uint_beq (Decimal.unorm d) d then
    match read_frac s2 with
    | None => None
    | Some (f, s3) =>
        match read_exp s3 with
        | None => None
        | Some (e, s4) =>
            match f, e with
            | None, None => Some (JNum (Z.of_int (signed neg d)), s4)
            | Some f, None => Some (JDec (Decimal.Decimal (signed neg d) f), s4)
            | None, Some e =>
                Some (JDec (Decimal.DecimalExp (signed neg d) Decimal.Nil e), s4)
            | Some f, Some e =>
                Some (JDec (Decimal.DecimalExp (signed neg d) f e), s4)
            end
        end
    end
  else None.

Fixpoint strip_prefix (p s : jsstring) : option jsstring :=
  match p, s with
  | [], _ => Some s
  | a :: p', b :: s' => if a =? b then strip_prefix p' s' else None
  | _ :: _, [] => None
  end.

Fixpoint units_eqb (a b : jsstring) : bool :=
  match a, b with
  | [], [] => true
  | x :: a', y :: b' => (x =? y) && units_eqb a' b'
  | _, _ => false
  end.

(** A property key that is an array index ([0 .. 2^32 - 2] in canonical
    decimal form): such keys are enumerated first, in ascending order. *)
Definition array_index (k : jsstring) : option N :=
  match read_digits k with
  | (d, []) =>
      if Decimal.uint_beq (Decimal.unorm d) d && (N.of_uint d <? 4294967295)
      then Some (N.of_uint d) else None
  | _ => None
  end.

Definition key_before (k k' : jsstring) : bool :=
  match array_index k, array_index k' with
  | Some i, Some j => i <? j
  | Some _, None => true
  | None, _ => false
  end.

Fixpoint obj_replace (k : jsstring) (v : json) (m : list (jsstring * json))
  : option (list (jsstring * json)) :=
  match m with
  | [] => None
  | (k', v') :: m' =>
      if units_eqb k k' then Some ((k', v) :: m')
      else
        match obj_replace k v m' with
        | Some m'' => Some ((k', v') :: m'')
        | None => None
        end
  end.

Fixpoint obj_insert (k : jsstring) (v : json) (m : list (jsstring * json))
  : list (jsstring * json) :=
  match m with
  | [] => [(k, v)]
  | (k', v') :: m' =>
      if key_before k k' then (k, v) :: m
      else (k', v') :: obj_insert k v m'
  end.

(** [obj[k] = v] on an ordinary object: an existing property keeps its
    place, a new one is enumerated after the others of its kind. *)
Definition obj_set (k : jsstring) (v : json) (m : list (jsstring * json))
  : list (jsstring * json) :=
  match obj_replace k v m with
  | Some m' => m'
  | None => obj_insert k v m
  end.

(** Recursive descent; [fuel] bounds the number of nested calls, and
    [parse] below gives enough of it for the whole text. *)
Fixpoint parse_value (fuel : nat) (s : jsstring) : result (json * jsstring) :=
  match fuel with
  | O => OutOfFuel
  | S fuel =>
      match skip_ws s with
      | [] => SyntaxError
      | c :: r =>
          if c =? ch "[" then
            match skip_ws r with
            | [] => SyntaxError
            | c' :: r' =>
                if c' =? ch "]" then Ok (JArr [], r')
                else
                  match parse_elements fuel r with
                  | Ok (l, rest) => Ok (JArr l, rest)
                  | SyntaxError => SyntaxError
                  | OutOfFuel => OutOfFuel
                  end
            end
          else if c =? ch "{" then
            match skip_ws r with
            | [] => SyntaxError
            | c' :: r' =>
                if c' =? ch "}" then Ok (JObj [], r')
                else
                  match parse_members fuel [] r with
                  | Ok (m, rest) => Ok (JObj m, rest)
                  | SyntaxError => SyntaxError
                  | OutOfFuel => OutOfFuel
                  end
            end
          else if c =? QUOTE then
            match parse_chars r with
            | Some (str, rest) => Ok (JStr str, rest)
            | None => SyntaxError
            end
          else if c =? ch "t" then
            match strip_prefix (js "rue") r with
            | Some rest => Ok (JBool true, rest)
            | None => SyntaxError
            end
          else if c =? ch "f" then
            match strip_prefix (js "alse") r with
            | Some rest => Ok (JBool false, rest)
            | None => SyntaxError
            end
          else if c =? ch "n" then
            match strip_prefix (js "ull") r with
            | Some rest => Ok (JNull, rest)
            | None => SyntaxError
            end
          else
            match parse_number (c :: r) with
            | Some x => Ok x
            | None => SyntaxError
            end
      end
  end
with parse_elements (fuel : nat) (s : jsstring)
  : result (list json * jsstring) :=
  match fuel with
  | O => OutOfFuel
  | S fuel =>
      match parse_value fuel s with
      | Ok (v, r) =>
          match skip_ws r with
          | [] => SyntaxError
          | c :: r' =>
              if c =? ch "," then
                match parse_elements fuel r' with
                | Ok (l, rest) => Ok (v :: l, rest)
                | SyntaxError => SyntaxError
                | OutOfFuel => OutOfFuel
                end
              else if c =? ch "]" then Ok ([v], r')
              else SyntaxError
          end
      | SyntaxError => SyntaxError
      | OutOfFuel => OutOfFuel
      end
  end
with parse_members (fuel : nat) (acc : list (jsstring * json)) (s : jsstring)
  : result (list (jsstring * json) * jsstring) :=
  match fuel with
  | O => OutOfFuel
  | S fuel =>
      match skip_ws s with
      | [] => SyntaxError
      | c :: r =>
          if c =? QUOTE then
            match parse_chars r with
            | None => SyntaxError
            | Some (k, r1) =>
                match skip_ws r1 with
                | [] => SyntaxError
                | c1 :: r2 =>
                    if c1 =? ch ":" then
                      match parse_value fuel r2 with
                      | Ok (v, r3) =>
                          match skip_ws r3 with
                          | [] => SyntaxError
                          | c3 :: r4 =>
                              if c3 =? ch "," then
                                parse_members fuel (obj_set k v acc) r4
                              else if c3 =? ch "}" then
                                Ok (obj_set k v acc, r4)
                              else SyntaxError
                          end
                      | SyntaxError => SyntaxError
                      | OutOfFuel => OutOfFuel
                      end
                    else SyntaxError
                end
            end
          else SyntaxError
      end
  end.

Definition fuel_for (text : jsstring) : nat := 2 * length text + 1.

(** [JSON.parse(text)]: [None] when it throws a SyntaxError. *)
Definition parse (text : jsstring) : option json :=
  match parse_value (fuel_for text) text with
  | Ok (v, rest) =>
      match skip_ws rest with
      | [] => Some v
      | _ :: _ => None
      end
  | _ => None
  end.

End JSON.

(** ** The data of [App.tsx] *)

Module Reward.
Record t : Type := {
  id : jsstring;
  title : jsstring;
  description : jsstring;
  icon : jsstring
}.
End Reward.

Module HistoryEntry.
Record t : Type := {
  id : jsstring;
  cardNumber : Z;
  rewardTitle : jsstring;
  rewardIcon : jsstring;
  timestamp : Z
}.

(** The object literal of [handleDraw], properties in the order written. *)
Definition to_json (e : t) : json :=
  JObj [ (js "id", JStr (id e));
         (js "cardNumber", JNum (cardNumber e));
         (js "rewardTitle", JStr (rewardTitle e));
         (js "rewardIcon", JStr (rewardIcon e));
         (js "timestamp", JNum (timestamp e)) ].
End HistoryEntry.

(** A History Log as the value the [history] state holds. *)
Definition history_json (l : list HistoryEntry.t) : json :=
  JArr (map HistoryEntry.to_json l).

Definition HISTORY_STORAGE_KEY : jsstring := js "reward-history".

Definition HISTORY_LIMIT : nat := 10.

(** The four rewards of the catalog; an icon is given by its code units. *)
Definition mug : Reward.t :=
  {| Reward.id := js "mug";
     Reward.title := js "Devsmith Mug";
     Reward.description := js "Limited ceramic mug for your next caffeine boost.";
     Reward.icon := [9749; 65039] |}.

Definition coupon : Reward.t :=
  {| Reward.id := js "coupon";
     Reward.title := js "Odoo Development Coupon";
     Reward.description := js "Apply this coupon toward premium Odoo build time.";
     Reward.icon := [55356; 57247; 65039] |}.

Definition stickers : Reward.t :=
  {| Reward.id := js "stickers";
     Reward.title := js "Sticker Set";
     Reward.description := js "A playful sticker pack to brighten every device.";
     Reward.icon := [10024] |}.

Definition mystery : Reward.t :=
  {| Reward.id := js "mystery";
     Reward.title := js "Mystery Add-on";
     Reward.description := js "An extra surprise that appears in your inbox.";
     Reward.icon := [55356; 57217] |}.

Definition rewards : list Reward.t := [mug; coupon; stickers; mystery].

(** ** The host: storage, clock and random source *)

(** [window.localStorage]; [window] is [None] where it is undefined. *)
Abbreviation Storage := (gmap jsstring jsstring).
Abbreviation Window := (option Storage).

Definition getItem (k : jsstring) (store : Storage) : option jsstring :=
  store !! k.
Definition setItem (k v : jsstring) (store : Storage) : Storage :=
  <[k := v]> store.
Definition removeItem (k : jsstring) (store : Storage) : Storage :=
  delete k store.

(** What one run of [handleDraw] reads from the host, in the order read:
    [Math.random()] for the reward, then in the updater [Date.now()] and
    [Math.random().toString(16)] for the id and [Date.now()] for the
    timestamp. [Math.random()] is a double in [0, 1), here the rational it
    denotes; its product with the length 4 is exact. *)
Record Env : Type := {
  Math_random : Q;
  Date_now_id : Z;
  Math_random_hex : jsstring;
  Date_now_timestamp : Z
}.

(** [a[i]] for an integer [i]: [None] is [undefined]. *)
Definition array_get {A : Type} (a : list A) (i : Z) : option A :=
  if (i <? 0)%Z then None else a !! Z.to_nat i.

(** ** The component state *)

Record State : Type := {
  selectedCard : option Z;
  currentReward : option Reward.t;
  statusMessage : jsstring;
  isDrawing : bool;
  isModalOpen : bool;
  history : json
}.

Record Session : Type := {
  state : State;
  window : Window
}.

(** The calls a handler makes. The [setX] calls queue a state update;
    [setHistory] takes the updater ([None]: it throws), a plain value being
    the constant updater; [localStorage_removeItem] stands for the guarded
    statement [if (typeof window !== 'undefined')
    window.localStorage.removeItem(k)]. *)
Inductive Call : Type :=
  | setSelectedCard (v : option Z)
  | setCurrentReward (v : option Reward.t)
  | setStatusMessage (v : jsstring)
  | setIsDrawing (v : bool)
  | setIsModalOpen (v : bool)
  | setHistory (updater : json -> option json)
  | localStorage_removeItem (k : jsstring).

(** The spread [...prev]: the elements of an array, the code points of a
    string; any other JSON value is not iterable and the spread throws. *)
Definition spread (prev : json) : option (list json) :=
  match prev with
  | JArr l => Some l
  | JStr s => Some (map JStr (code_points s))
  | _ => None
  end.

(** The initializer of the [history] state. *)
Definition initial_history (w : Window) : json :=
  match w with
  | None => JArr []
  | Some store =>
      match getItem HISTORY_STORAGE_KEY store with
      | Some (c :: r) =>
          match JSON.parse (c :: r) with
          | Some v => v
          | None => JArr []
          end
      | Some [] => JArr []
      | None => JArr []
      end
  end.

Definition initial_state (w : Window) : State :=
  {| selectedCard := None;
     currentReward := None;
     statusMessage := js "Pick one of the four cards below to begin.";
     isDrawing := false;
     isModalOpen := false;
     history := initial_history w |}.

(** The effect with dependency [history]. *)
Definition history_effect (h : json) (w : Window) : Window :=
  match w with
  | None => None
  | Some store => Some (setItem HISTORY_STORAGE_KEY (JSON.stringify h) store)
  end.

(** ** Event handlers *)

(** [rewards[Math.floor(Math.random() * rewards.length)]]: [None] is
    [undefined]. *)
Definition drawn_reward (env : Env) : option Reward.t :=
  array_get rewards
    (Qfloor (Math_random env * inject_Z (Z.of_nat (length rewards)))).

(** The [entry] the updater of [handleDraw] builds. *)
Definition new_entry (card : Z) (reward : Reward.t) (env : Env)
  : HistoryEntry.t :=
  {| HistoryEntry.id :=
       number_to_string (Date_now_id env) ++ js "-" ++
       slice_from 2 (Math_random_hex env);
     HistoryEntry.cardNumber := card + 1;
     HistoryEntry.rewardTitle := Reward.title reward;
     HistoryEntry.rewardIcon := Reward.icon reward;
     HistoryEntry.timestamp := Date_now_timestamp env |}.

Definition handleDraw (s : State) (env : Env) : list Call :=
  match selectedCard s with
  | None => [setStatusMessage (js "Choose a card first to start the draw.")]
  | Some card =>
      let reward := drawn_reward env in
      [ setIsDrawing true;
        setCurrentReward reward;
        setStatusMessage
          (js "You opened Card " ++ number_to_string (card + 1) ++ js "!");
        setHistory (fun prev =>
          match reward with
          | None => None
          | Some reward =>
              let entry := new_entry card reward env in
              match spread prev with
              | Some items =>
                  let next := HistoryEntry.to_json entry :: items in
                  Some (JArr (take HISTORY_LIMIT next))
              | None => None
              end
          end);
        setIsModalOpen true;
        setIsDrawing false ]
  end.

Definition handleCardSelect (index : Z) (s : State) (env : Env) : list Call :=
  let same :=
    match selectedCard s with
    | Some card => (card =? index)%Z
    | None => false
    end in
  if same then handleDraw s env
  else
    [ setSelectedCard (Some index);
      setCurrentReward None;
      setStatusMessage (js "Click again to open, or choose another card.") ].

Definition handleCloseModal : list Call := [setIsModalOpen false].

Definition handleClearHistory : list Call :=
  [ setHistory (fun _ => Some (JArr []));
    localStorage_removeItem HISTORY_STORAGE_KEY ].

(** The [disabled] attribute of the draw button in the rendered page. *)
Definition draw_button_disabled (s : State) : bool :=
  isDrawing s ||
  match selectedCard s with
  | None => true
  | Some _ => false
  end.

(** ** One event: handler, render, effect *)

Inductive Event : Type :=
  | selectCard (index : Z)
  | draw
  | closeModal
  | clearHistory.

Definition handler (ev : Event) (s : State) (env : Env) : list Call :=
  match ev with
  | selectCard index => handleCardSelect index s env
  | draw => handleDraw s env
  | closeModal => handleCloseModal
  | clearHistory => handleClearHistory
  end.

(** What a call does to the store while the handler runs. *)
Definition call_storage (c : Call) (w : Window) : Window :=
  match c with
  | localStorage_removeItem k => removeItem k <$> w
  | _ => w
  end.

(** What a call does to the state when React processes the queue
    ([None]: the updater throws and the render fails). *)
Definition call_state (c : Call) (s : State) : option State :=
  match c with
  | setSelectedCard v =>
      Some {| selectedCard := v; currentReward := currentReward s;
              statusMessage := statusMessage s; isDrawing := isDrawing s;
              isModalOpen := isModalOpen s; history := history s |}
  | setCurrentReward v =>
      Some {| selectedCard := selectedCard s; currentReward := v;
              statusMessage := statusMessage s; isDrawing := isDrawing s;
              isModalOpen := isModalOpen s; history := history s |}
  | setStatusMessage v =>
      Some {| selectedCard := selectedCard s; currentReward := currentReward s;
              statusMessage := v; isDrawing := isDrawing s;
              isModalOpen := isModalOpen s; history := history s |}
  | setIsDrawing v =>
      Some {| selectedCard := selectedCard s; currentReward := currentReward s;
              statusMessage := statusMessage s; isDrawing := v;
              isModalOpen := isModalOpen s; history := history s |}
  | setIsModalOpen v =>
      Some {| selectedCard := selectedCard s; currentReward := currentReward s;
              statusMessage := statusMessage s; isDrawing := isDrawing s;
              isModalOpen := v; history := history s |}
  | setHistory updater =>
      match updater (history s) with
      | Some h =>
          Some {| selectedCard := selectedCard s;
                  currentReward := currentReward s;
                  statusMessage := statusMessage s; isDrawing := isDrawing s;
                  isModalOpen := isModalOpen s; history := h |}
      | None => None
      end
  | localStorage_removeItem _ => Some s
  end.

Fixpoint run_storage (calls : list Call) (w : Window) : Window :=
  match calls with
  | [] => w
  | c :: calls' => run_storage calls' (call_storage c w)
  end.

Fixpoint run_state (calls : list Call) (s : State) : option State :=
  match calls with
  | [] => Some s
  | c :: calls' =>
      match call_state c s with
      | Some s' => run_state calls' s'
      | None => None
      end
  end.

(** Every [setHistory] of this program stores a fresh array, so the
    dependency [history] of the effect changes exactly when one was called. *)
Definition sets_history (c : Call) : bool :=
  match c with
  | setHistory _ => true
  | _ => false
  end.

(** Mounting: the initializers, then the effect that runs after the first
    render. What the page itself does while it renders (lines 146 to 325) is
    not part of [mount]: it gives a session also for an adopted [history] on
    which the list of the page would throw (a number, say). *)
Definition mount (w : Window) : Session :=
  let s := initial_state w in
  {| state := s; window := history_effect (history s) w |}.

(** One event: the handler runs on the state of the last render, its
    storage calls at once; then the queued updates are processed and, when
    [history] changed, the effect runs. [None]: the updater of [setHistory]
    threw while the queue was processed. What the page does while it renders
    the new state is not part of [dispatch]. *)
Definition dispatch (ev : Event) (env : Env) (x : Session) : option Session :=
  let calls := handler ev (state x) env in
  let w := run_storage calls (window x) in
  match run_state calls (state x) with
  | Some s =>
      Some {| state := s;
              window := if existsb sets_history calls
                        then history_effect (history s) w else w |}
  | None => None
  end.

(** The sessions events lead to from a given host. They include every
    session of the running page, and also sessions on which the page would
    have thrown while rendering. *)
Inductive reachable (w : Window) : Session -> Prop :=
  | reachable_mount : reachable w (mount w)
  | reachable_dispatch x ev env y :
      reachable w x -> dispatch ev env x = Some y -> reachable w y.

(** ** Notions used in the statements *)


(** The History Log is an array of at most [HISTORY_LIMIT] entries. *)
Definition within_limit (h : json) : Prop :=
  exists l, h = JArr l /\ (length l <= HISTORY_LIMIT)%nat.

(** [Number.isSafeInteger]: the integers a double holds exactly. *)
Definition safe_integer (z : Z) : Prop :=
  (- (2 ^ 53 - 1) <= z <= 2 ^ 53 - 1)%Z.

(** A HistoryEntry as the data model describes it. *)
Definition well_formed (e : HistoryEntry.t) : Prop :=
  (1 <= HistoryEntry.cardNumber e <= 4)%Z /\
  safe_integer (HistoryEntry.timestamp e).

Definition obj_get (k : jsstring) (m : list (jsstring * json)) : option json :=
  snd <$> find (fun kv => JSON.units_eqb k (fst kv)) m.

Definition is_string (v : json) : bool :=
  match v with
  | JStr _ => true
  | _ => false
  end.

Definition is_number (v : json) : bool :=
  match v with
  | JNum _ | JDec _ => true
  | _ => false
  end.

Definition has_field (k : jsstring) (kind : json -> bool)
    (m : list (jsstring * json)) : bool :=
  match obj_get k m with
  | Some v => kind v
  | None => false
  end.

(** A value shaped as the type [HistoryEntry] (further properties allowed). *)
Definition shaped_entry (v : json) : bool :=
  match v with
  | JObj m =>
      has_field (js "id") is_string m &&
      has_field (js "cardNumber") is_number m &&
      has_field (js "rewardTitle") is_string m &&
      has_field (js "rewardIcon") is_string m &&
      has_field (js "timestamp") is_number m
  | _ => false
  end.

Definition shaped_history (v : json) : bool :=
  match v with
  | JArr l => forallb shaped_entry l
  | _ => false
  end.

(** A stored string that is not JSON, or JSON of another shape than
    [HistoryEntry[]]. *)
Definition malformed (stored : jsstring) : Prop :=
  match JSON.parse stored with
  | Some v => shaped_history v = false
  | None => True
  end.

(** The sessions the handlers lead to. *)

(** After [handleDraw] with no card selected. *)
Definition guided (x : Session) : Session :=
  {| state :=
       {| selectedCard := selectedCard (state x);
          currentReward := currentReward (state x);
          statusMessage := js "Choose a card first to start the draw.";
          isDrawing := isDrawing (state x);
          isModalOpen := isModalOpen (state x);
          history := history (state x) |};
     window := window x |}.

(** After [handleDraw] with [card] selected, [reward] drawn and the log
    [items] before it. *)
Definition drawn (card : Z) (reward : Reward.t) (items : list json)
    (env : Env) (x : Session) : Session :=
  let next := HistoryEntry.to_json (new_entry card reward env) :: items in
  {| state :=
       {| selectedCard := selectedCard (state x);
          currentReward := Some reward;
          statusMessage :=
            js "You opened Card " ++ number_to_string (card + 1) ++ js "!";
          isDrawing := false;
          isModalOpen := true;
          history := JArr (take HISTORY_LIMIT next) |};
     window := history_effect (JArr (take HISTORY_LIMIT next)) (window x) |}.

(** After [handleCardSelect index] on another card than the selected one. *)
Definition chosen (index : Z) (x : Session) : Session :=
  {| state :=
       {| selectedCard := Some index;
          currentReward := None;
          statusMessage := js "Click again to open, or choose another card.";
          isDrawing := isDrawing (state x);
          isModalOpen := isModalOpen (state x);
          history := history (state x) |};
     window := window x |}.

(** After [handleCloseModal]. *)
Definition closed (x : Session) : Session :=
  {| state :=
       {| selectedCard := selectedCard (state x);
          currentReward := currentReward (state x);
          statusMessage := statusMessage (state x);
          isDrawing := isDrawing (state x);
          isModalOpen := false;
          history := history (state x) |};
     window := window x |}.

(** After [handleClearHistory]: the key is removed by the handler, then
    written again by the effect. *)
Definition cleared (x : Session) : Session :=
  {| state :=
       {| selectedCard := selectedCard (state x);
          currentReward := currentReward (state x);
          statusMessage := statusMessage (state x);
          isDrawing := isDrawing (state x);
          isModalOpen := isModalOpen (state x);
          history := JArr [] |};
     window :=
       history_effect (JArr []) (removeItem HISTORY_STORAGE_KEY <$> window x) |}.

(** *** Notions for the reading of printed values *)

Definition no_digit (rest : jsstring) : Prop :=
  match rest with
  | [] => True
  | c :: _ => digit_of c = None
  end.

(** What may follow a numeral without being read as part of it. *)
Definition ends_numeral (rest : jsstring) : bool :=
  match rest with
  | [] => true
  | c :: _ =>
      match digit_of c with
      | Some _ => false
      | None => negb (c =? ch ".") && negb ((c =? ch "e") || (c =? ch "E"))
      end
  end.

(** A bound on the fuel the parser needs for the printed form of [v]. *)
Fixpoint weight (v : json) : nat :=
  match v with
  | JArr l => S (list_sum (map (fun x => S (weight x)) l))
  | JObj m => S (list_sum (map (fun kv => S (weight (snd kv))) m))
  | _ => 1
  end.

Fixpoint distinct (ks : list jsstring) : bool :=
  match ks with
  | [] => true
  | k :: ks' => negb (existsb (JSON.units_eqb k) ks') && distinct ks'
  end.

Definition named (k : jsstring) : bool :=
  match JSON.array_index k with
  | Some _ => false
  | None => true
  end.

(** The values [JSON.parse] gives back unchanged after [JSON.stringify]:
    integers, strings, arrays, and objects whose keys are distinct names. *)
Fixpoint plain (v : json) : bool :=
  match v with
  | JDec _ => false
  | JArr l => forallb plain l
  | JObj m =>
      forallb (fun kv => plain (snd kv)) m &&
      forallb named (map fst m) && distinct (map fst m)
  | _ => true
  end.

Definition opens_value (s : jsstring) : Prop :=
  match s with
  | [] => False
  | c :: _ =>
      JSON.is_ws c = false /\ (c =? ch "]") = false /\ (c =? ch "}") = false
  end.

(** The text after the first item of a comma-separated run. *)
Definition continued (texts : list jsstring) (close : N) (rest : jsstring)
  : jsstring :=
  flat_map (fun y => ch "," :: y) texts ++ close :: rest.

Definition member_text (kv : jsstring * json) : jsstring :=
  JSON.quote (fst kv) ++ ch ":" :: JSON.stringify (snd kv).

Definition reads_back (v : json) : Prop :=
  forall fuel rest,
    (weight v <= fuel)%nat -> ends_numeral rest = true ->
    JSON.parse_value fuel (JSON.stringify v ++ rest) = Ok (v, rest).

Definition finished {A : Type} (x : result A) : Prop := x <> OutOfFuel.

Definition stable (f f' : nat) : Prop :=
  (forall s, finished (JSON.parse_value f s) ->
             JSON.parse_value f' s = JSON.parse_value f s) /\
  (forall s, finished (JSON.parse_elements f s) ->
             JSON.parse_elements f' s = JSON.parse_elements f s) /\
  (forall acc s, finished (JSON.parse_members f acc s) ->
                 JSON.parse_members f' acc s = JSON.parse_members f acc s).

(** A run that finished with a value consumed at least one code unit. *)
Definition consumes {A : Type} (x : result (A * jsstring)) (s : jsstring)
  : Prop :=
  match x with
  | Ok (_, r) => (length r < length s)%nat
  | SyntaxError => True
  | OutOfFuel => False
  end.

(** *** Sample data *)

Definition sample_env : Env :=
  {| Math_random := 3 # 4;
     Date_now_id := 1700000000000;
     Math_random_hex := js "0.8a3f";
     Date_now_timestamp := 1700000000001 |}.

Definition sample_entry (n : Z) : HistoryEntry.t :=
  {| HistoryEntry.id := number_to_string (1700000000000 + n) ++ js "-8a3f";
     HistoryEntry.cardNumber := 3;
     HistoryEntry.rewardTitle := js "Sticker Set";
     HistoryEntry.rewardIcon := [10024];
     HistoryEntry.timestamp := 1700000000000 + n |}.

(** Eleven entries, newest first. *)
Definition eleven_entries : list HistoryEntry.t :=
  map (fun k => sample_entry (Z.of_nat k)) (rev (seq 0 11)).

Definition empty_store : Storage := ∅.

Definition store_with (stored : jsstring) : Storage :=
  {[ HISTORY_STORAGE_KEY := stored ]}.

(** The session after mounting on an empty store, selecting card 3 and
    drawing once with [sample_env]. *)
Definition drawn_session : Session :=
  drawn 2 mystery [] sample_env (chosen 2 (mount (Some empty_store))).

(** A session in which card 3 (index 2) is selected and nothing was drawn. *)
Definition selected_session : Session :=
  {| state :=
       {| selectedCard := Some 2%Z;
          currentReward := None;
          statusMessage := js "Click again to open, or choose another card.";
          isDrawing := false;
          isModalOpen := false;
          history := JArr [] |};
     window := Some (store_with (js "[]")) |}.

(** ** The page and its clicks *)

(** [cards]: [Array.from({ length: 4 }, (_, idx) => idx)]; one button per
    element, whose click calls [handleCardSelect] on it. *)
Definition cards : list Z := map Z.of_nat (seq 0 4).

(** The text of the draw button; the last code unit of the first one is the
    ellipsis. *)
Definition draw_button_label (s : State) : jsstring :=
  if isDrawing s then js "Drawing" ++ [8230] else js "Open Card".

(** The events a click can raise in a rendered state: a card button exists
    for each element of [cards] only, and a disabled draw button raises none.
    The close and clear buttons are rendered in some states only; they are
    taken as clickable in all of them, which allows more than the page does. *)
Definition clickable (s : State) (ev : Event) : bool :=
  match ev with
  | selectCard index => existsb (Z.eqb index) cards
  | draw => negb (draw_button_disabled s)
  | closeModal => true
  | clearHistory => true
  end.

(** The sessions reached by clicks alone. *)
Inductive clicked (w : Window) : Session -> Prop :=
  | clicked_mount : clicked w (mount w)
  | clicked_dispatch x ev env y :
      clicked w x -> clickable (state x) ev = true ->
      dispatch ev env x = Some y -> clicked w y.




(** The three status messages a click can lead to. *)
Definition initial_message : jsstring :=
  js "Pick one of the four cards below to begin.".
Definition guidance_message : jsstring :=
  js "Click again to open, or choose another card.".
Definition opened_message (card : Z) : jsstring :=
  js "You opened Card " ++ number_to_string (card + 1) ++ js "!".

(** Selection, current reward, status message and modal flag agree. *)
Definition coherent (s : State) : Prop :=
  match selectedCard s with
  | None =>
      statusMessage s = initial_message /\ currentReward s = None /\
      isModalOpen s = false
  | Some card =>
      In card cards /\
      ((statusMessage s = guidance_message /\ currentReward s = None) \/
       (exists reward, In reward rewards /\ currentReward s = Some reward /\
                       statusMessage s = opened_message card))
  end.

(** An entry as [handleDraw] records it after clicks: a card number of 1 to
    4, and the title and icon of one reward of the catalog. *)
Definition recorded (e : HistoryEntry.t) : Prop :=
  (1 <= HistoryEntry.cardNumber e <= 4)%Z /\
  exists reward, In reward rewards /\
    HistoryEntry.rewardTitle e = Reward.title reward /\
    HistoryEntry.rewardIcon e = Reward.icon reward.

(** A JSON object whose one property is [length], of value 0. Adopted as the
    log it is shown as an empty one, since [history.length === 0] holds, but
    it is not iterable. *)
Definition length_zero_object : json := JObj [(js "length", JNum 0)].

Definition object_store : Storage :=
  store_with (JSON.stringify length_zero_object).

(** The session after mounting on that store and selecting card 1. *)
Definition object_session : Session :=
  chosen 0 (mount (Some object_store)).

(** Sample hosts for the statements below. *)
Definition unreadable_store : Storage := store_with (js "oops").

Definition busy_store : Storage :=
  <[ js "theme" := js "dark" ]> empty_store.

Definition busy_session : Session :=
  drawn 2 mystery [] sample_env (chosen 2 (mount (Some busy_store))).

(** * Properties *)

Import JSON.

(** ** Printed values are read back *)

Lemma read_digits_units d rest :
  no_digit rest -> read_digits (uint_units d ++ rest) = (d, rest).
Proof.
  intros Hrest. induction d; simpl; try (rewrite IHd; reflexivity).
  destruct rest as [|c r]; [reflexivity|]. simpl in *. now rewrite Hrest.
Qed.

Lemma hex_of_unit k : k < 16 -> hex_of (hex_unit k) = Some k.
Proof.
  intros Hk. unfold hex_unit, hex_of.
  destruct (N.ltb_spec k 10).
  - replace ((48 <=? 48 + k) && (48 + k <=? 57)) with true.
    + f_equal. lia.
    + symmetry. apply andb_true_iff. split; apply N.leb_le; lia.
  - replace ((48 <=? 87 + k) && (87 + k <=? 57)) with false.
    + replace ((97 <=? 87 + k) && (87 + k <=? 102)) with true.
      * f_equal. lia.
      * symmetry. apply andb_true_iff. split; apply N.leb_le; lia.
    + symmetry. apply andb_false_iff. right. apply N.leb_gt. lia.
Qed.

Lemma read_hex4_hex4 c :
  c < 65536 ->
  read_hex4 (hex_unit (c / 4096 mod 16)) (hex_unit (c / 256 mod 16))
            (hex_unit (c / 16 mod 16)) (hex_unit (c mod 16)) = Some c.
Proof.
  intros Hc. unfold read_hex4.
  rewrite !hex_of_unit by (apply N.mod_lt; discriminate).
  f_equal.
  replace (c / 4096) with (c / 16 / 16 / 16)
    by (rewrite !N.Div0.div_div; reflexivity).
  replace (c / 256) with (c / 16 / 16)
    by (rewrite !N.Div0.div_div; reflexivity).
  pose proof (N.div_mod' c 16). pose proof (N.div_mod' (c / 16) 16).
  pose proof (N.div_mod' (c / 16 / 16) 16).
  pose proof (N.mod_lt c 16). pose proof (N.mod_lt (c / 16) 16).
  pose proof (N.mod_lt (c / 16 / 16) 16).
  assert (c / 16 / 16 / 16 < 16)
    by (rewrite !N.Div0.div_div; apply N.Div0.div_lt_upper_bound; lia).
  rewrite (N.mod_small (c / 16 / 16 / 16)) by assumption.
  lia.
Qed.

Lemma parse_chars_escape c s str rest :
  c < 65536 ->
  parse_chars s = Some (str, rest) ->
  parse_chars (escape_unit c ++ s) = Some (c :: str, rest).
Proof.
  intros Hc Hs. unfold escape_unit, hex4. cbn [app parse_chars].
  change (BACKSLASH =? QUOTE) with false.
  change (BACKSLASH =? BACKSLASH) with true.
  change (ch "u" =? ch "u") with true. cbv iota.
  rewrite read_hex4_hex4 by assumption. now rewrite Hs.
Qed.

Lemma parse_chars_plain c s str rest :
  32 <= c -> c <> QUOTE -> c <> BACKSLASH ->
  parse_chars s = Some (str, rest) ->
  parse_chars (c :: s) = Some (c :: str, rest).
Proof.
  intros Hc Hq Hb Hs. cbn [parse_chars].
  rewrite (proj2 (N.eqb_neq _ _) Hq), (proj2 (N.eqb_neq _ _) Hb).
  rewrite (proj2 (N.ltb_ge _ _) Hc). now rewrite Hs.
Qed.

Lemma parse_chars_unit c s str rest :
  parse_chars s = Some (str, rest) ->
  parse_chars (quote_unit c ++ s) = Some (c :: str, rest).
Proof.
  intros Hs. unfold quote_unit.
  repeat match goal with
  | |- context [if ?a =? ?b then _ else _] =>
      destruct (N.eqb_spec a b) as [->|?];
      [cbn; rewrite Hs; reflexivity|]
  end.
  destruct (N.ltb_spec c 32).
  - apply parse_chars_escape; [lia | assumption].
  - apply parse_chars_plain; assumption.
Qed.

Lemma surrogate_plain c :
  is_high_surrogate c = true \/ is_low_surrogate c = true ->
  32 <= c /\ c <> QUOTE /\ c <> BACKSLASH /\ c < 65536.
Proof.
  unfold is_high_surrogate, is_low_surrogate, QUOTE, BACKSLASH.
  rewrite !andb_true_iff, !N.leb_le. lia.
Qed.

Lemma parse_chars_quote_units s rest :
  parse_chars (quote_units s ++ QUOTE :: rest) = Some (s, rest).
Proof.
  remember (length s) as n eqn:Hn. revert s Hn.
  induction n as [n IH] using lt_wf_ind. intros s Hn.
  destruct s as [|c r]; [reflexivity|].
  cbn [quote_units].
  destruct (is_high_surrogate c) eqn:Hhigh.
  - destruct (surrogate_plain c (or_introl Hhigh)) as (? & ? & ? & ?).
    destruct r as [|d r'].
    + apply parse_chars_escape; [assumption | reflexivity].
    + destruct (is_low_surrogate d) eqn:Hlow.
      * destruct (surrogate_plain d (or_intror Hlow)) as (? & ? & ? & ?).
        cbn [app]. apply parse_chars_plain; try assumption.
        apply parse_chars_plain; try assumption.
        apply (IH (length r')); [subst n; simpl; lia | reflexivity].
      * rewrite <- app_assoc. apply parse_chars_escape; [assumption|].
        apply (IH (length (d :: r'))); [subst n; simpl; lia | reflexivity].
  - destruct (is_low_surrogate c) eqn:Hlow.
    + destruct (surrogate_plain c (or_intror Hlow)) as (? & ? & ? & ?).
      rewrite <- app_assoc. apply parse_chars_escape; [assumption|].
      apply (IH (length r)); [subst n; simpl; lia | reflexivity].
    + rewrite <- app_assoc. apply parse_chars_unit.
      apply (IH (length r)); [subst n; simpl; lia | reflexivity].
Qed.

Lemma ends_numeral_no_digit rest : ends_numeral rest = true -> no_digit rest.
Proof.
  destruct rest as [|c r]; [easy|]. simpl. now destruct (digit_of c).
Qed.

Lemma read_frac_ends rest :
  ends_numeral rest = true -> read_frac rest = Some (None, rest).
Proof.
  destruct rest as [|c r]; [easy|]. cbn [ends_numeral read_frac].
  destruct (digit_of c); [discriminate|].
  destruct (c =? ch "."); [discriminate | reflexivity].
Qed.

Lemma read_exp_ends rest :
  ends_numeral rest = true -> read_exp rest = Some (None, rest).
Proof.
  destruct rest as [|c r]; [easy|]. cbn [ends_numeral read_exp].
  destruct (digit_of c); [discriminate|].
  destruct (c =? ch "."); [discriminate|].
  destruct ((c =? ch "e") || (c =? ch "E")); [discriminate | reflexivity].
Qed.

Lemma unorm_to_uint n : Decimal.unorm (N.to_uint n) = N.to_uint n.
Proof.
  rewrite <- (DecimalN.Unsigned.to_of (N.to_uint n)).
  now rewrite DecimalN.Unsigned.of_to.
Qed.

Lemma uint_beq_refl d : Decimal.uint_beq d d = true.
Proof. now apply Decimal.internal_uint_dec_lb. Qed.

Lemma read_sign_digits d rest :
  d <> Decimal.Nil ->
  read_sign (uint_units d ++ rest) = (false, uint_units d ++ rest).
Proof. destruct d; [congruence | reflexivity ..]. Qed.

(** The numeral of [n], read back in front of [rest]. *)
Lemma parse_number_units neg n rest :
  ends_numeral rest = true ->
  parse_number (int_units (signed neg (N.to_uint n)) ++ rest) =
  Some (JNum (Z.of_int (signed neg (N.to_uint n))), rest).
Proof.
  intros Hrest. unfold parse_number.
  assert (Hnil : N.to_uint n <> Decimal.Nil).
  { destruct n; [discriminate | apply Unsigned.to_uint_nonnil]. }
  assert (Hsign : read_sign (int_units (signed neg (N.to_uint n)) ++ rest) =
                  (neg, uint_units (N.to_uint n) ++ rest)).
  { destruct neg; [reflexivity | now apply read_sign_digits]. }
  rewrite Hsign.
  rewrite read_digits_units by now apply ends_numeral_no_digit.
  rewrite unorm_to_uint, uint_beq_refl.
  now rewrite read_frac_ends, read_exp_ends.
Qed.

Lemma parse_number_to_string z rest :
  ends_numeral rest = true ->
  parse_number (number_to_string z ++ rest) = Some (JNum z, rest).
Proof.
  intros Hrest. unfold number_to_string.
  rewrite <- (DecimalZ.of_to z) at 2.
  destruct z as [|p|p].
  - apply (parse_number_units false 0 rest Hrest).
  - apply (parse_number_units false (N.pos p) rest Hrest).
  - apply (parse_number_units true (N.pos p) rest Hrest).
Qed.

Lemma uint_units_head d rest :
  d <> Decimal.Nil ->
  exists k r, uint_units d ++ rest = digit_unit k :: r /\ k < 10.
Proof.
  destruct d; [congruence | intros _ ..]; cbn [uint_units app];
    eexists _, _; (split; [reflexivity | lia]).
Qed.

Lemma to_int_head z rest :
  exists c r, number_to_string z ++ rest = c :: r /\
    ((exists k, c = digit_unit k /\ k < 10) \/ c = ch "-").
Proof.
  unfold number_to_string.
  destruct z as [|p|p]; cbn [Z.to_int int_units app].
  - exists (digit_unit 0), rest. split; [reflexivity|]. left. exists 0.
    split; [reflexivity | lia].
  - destruct (uint_units_head (Pos.to_uint p) rest (Unsigned.to_uint_nonnil p))
      as (k & r & -> & Hk).
    exists (digit_unit k), r. split; [reflexivity|]. left. eauto.
  - eexists _, _. split; [reflexivity|]. now right.
Qed.

Lemma digit_cases k : k < 10 ->
  k = 0 \/ k = 1 \/ k = 2 \/ k = 3 \/ k = 4 \/ k = 5 \/ k = 6 \/ k = 7 \/
  k = 8 \/ k = 9.
Proof. lia. Qed.

(** A numeral is dispatched to [parse_number]. *)
Lemma parse_value_number fuel z rest :
  parse_value (S fuel) (number_to_string z ++ rest) =
  match parse_number (number_to_string z ++ rest) with
  | Some x => Ok x
  | None => SyntaxError
  end.
Proof.
  destruct (to_int_head z rest) as (c & r & -> & [(k & -> & Hk) | ->]).
  - destruct (digit_cases k Hk) as [->|[->|[->|[->|[->|[->|[->|[->|[->| ->]]]]]]]]];
      reflexivity.
  - reflexivity.
Qed.

Lemma opens_value_number z rest : opens_value (number_to_string z ++ rest).
Proof.
  destruct (to_int_head z rest) as (c & r & -> & [(k & -> & Hk) | ->]).
  - destruct (digit_cases k Hk) as [->|[->|[->|[->|[->|[->|[->|[->|[->| ->]]]]]]]]];
      repeat split.
  - repeat split.
Qed.

Lemma opens_value_stringify v rest :
  plain v = true -> opens_value (stringify v ++ rest).
Proof.
  destruct v as [| [|] | z | d | s | l | m]; intros Hv;
    try discriminate; try (repeat split; fail).
  apply opens_value_number.
Qed.

Lemma skip_ws_opens s : opens_value s -> skip_ws s = s.
Proof.
  destruct s as [|c r]; [easy|]. intros (Hws & _). cbn. now rewrite Hws.
Qed.

Lemma units_eqb_eq a b : units_eqb a b = true <-> a = b.
Proof.
  revert b. induction a as [|x a IH]; intros [|y b]; cbn; try easy.
  rewrite andb_true_iff, N.eqb_eq, IH. split; [intros [-> ->] | intros [= -> ->]]; easy.
Qed.

Lemma existsb_units_eqb k ks : existsb (units_eqb k) ks = true <-> In k ks.
Proof.
  rewrite existsb_exists. split.
  - intros (x & Hx & Heq). apply units_eqb_eq in Heq. now subst.
  - intros Hk. exists k. split; [assumption | now apply units_eqb_eq].
Qed.

Lemma distinct_NoDup ks : distinct ks = true <-> List.NoDup ks.
Proof.
  induction ks as [|k ks IH]; cbn.
  - split; [constructor | easy].
  - rewrite andb_true_iff, negb_true_iff, IH. split.
    + intros [Hk Hks]. constructor; [|assumption].
      intros Hin. apply existsb_units_eqb in Hin. congruence.
    + intros Hnd. inversion Hnd as [|? ? Hk Hks]; subst. split; [|assumption].
      destruct (existsb (units_eqb k) ks) eqn:E; [|reflexivity].
      now apply existsb_units_eqb in E.
Qed.

Lemma obj_replace_fresh k v m :
  ~ In k (map fst m) -> obj_replace k v m = None.
Proof.
  induction m as [|[k' v'] m IH]; cbn; [easy|]. intros Hk.
  destruct (units_eqb k k') eqn:E.
  - apply units_eqb_eq in E. subst. tauto.
  - rewrite IH by tauto. reflexivity.
Qed.

Lemma obj_insert_named k v m :
  named k = true -> obj_insert k v m = m ++ [(k, v)].
Proof.
  intros Hk. induction m as [|[k' v'] m IH]; cbn; [reflexivity|].
  unfold key_before. unfold named in Hk.
  destruct (array_index k); [discriminate|]. now rewrite IH.
Qed.

Lemma obj_set_fresh k v m :
  named k = true -> ~ In k (map fst m) -> obj_set k v m = m ++ [(k, v)].
Proof.
  intros Hk Hm. unfold obj_set.
  rewrite obj_replace_fresh by assumption. now apply obj_insert_named.
Qed.

Lemma skip_ws_stop c r : is_ws c = false -> skip_ws (c :: r) = c :: r.
Proof. intros H. cbn. now rewrite H. Qed.

Lemma parse_value_array fuel r :
  opens_value r ->
  parse_value (S fuel) (ch "[" :: r) =
  match parse_elements fuel r with
  | Ok (l, rest) => Ok (JArr l, rest)
  | SyntaxError => SyntaxError
  | OutOfFuel => OutOfFuel
  end.
Proof.
  destruct r as [|c r]; [easy|]. intros (Hws & Hclose & _).
  cbn [parse_value skip_ws]. change (is_ws (ch "[")) with false. cbv iota.
  change (ch "[" =? ch "[") with true. cbv iota.
  now rewrite (skip_ws_stop c r Hws), Hclose.
Qed.

Lemma parse_value_object fuel r :
  opens_value r ->
  parse_value (S fuel) (ch "{" :: r) =
  match parse_members fuel [] r with
  | Ok (m, rest) => Ok (JObj m, rest)
  | SyntaxError => SyntaxError
  | OutOfFuel => OutOfFuel
  end.
Proof.
  destruct r as [|c r]; [easy|]. intros (Hws & _ & Hclose).
  cbn [parse_value skip_ws]. change (is_ws (ch "{")) with false. cbv iota.
  change (ch "{" =? ch "[") with false. change (ch "{" =? ch "{") with true.
  cbv iota. now rewrite (skip_ws_stop c r Hws), Hclose.
Qed.

Lemma commas_continued x texts close rest :
  commas (x :: texts) ++ close :: rest = x ++ continued texts close rest.
Proof. unfold continued. cbn. now rewrite <- app_assoc. Qed.

Lemma continued_cons x texts close rest :
  continued (x :: texts) close rest =
  ch "," :: x ++ continued texts close rest.
Proof. unfold continued. cbn. now rewrite <- app_assoc. Qed.

Lemma ends_numeral_continued texts close rest :
  close = ch "]" \/ close = ch "}" ->
  ends_numeral (continued texts close rest) = true.
Proof. destruct texts; intros [-> | ->]; reflexivity. Qed.

Lemma parse_elements_stringify l : forall x fuel rest,
  Forall reads_back (x :: l) ->
  (list_sum (map (fun y => S (weight y)) (x :: l)) <= fuel)%nat ->
  parse_elements fuel
    (stringify x ++ continued (map stringify l) (ch "]") rest) =
  Ok (x :: l, rest).
Proof.
  induction l as [|y l IH]; intros x fuel rest Hall Hfuel;
    inversion Hall as [|? ? Hx Hl]; subst; unfold reads_back in Hx;
    destruct fuel as [|fuel]; cbn [map list_sum fold_right] in Hfuel; try lia;
    cbn [parse_elements].
  - rewrite Hx; [reflexivity | lia | reflexivity].
  - rewrite Hx; [| lia | now apply ends_numeral_continued; left].
    cbn [map]. rewrite continued_cons. cbn [skip_ws]. change (is_ws (ch ",")) with false.
    cbv iota. change (ch "," =? ch ",") with true. cbv iota.
    rewrite IH; [reflexivity | assumption | cbn [map list_sum fold_right]; lia].
Qed.

Lemma member_text_app k v tail :
  member_text (k, v) ++ tail =
  QUOTE :: (quote_units k ++ QUOTE :: ch ":" :: (stringify v ++ tail)).
Proof.
  unfold member_text, quote. cbn [fst snd app].
  rewrite <- !app_assoc. reflexivity.
Qed.

Lemma parse_members_stringify m : forall k v acc fuel rest,
  Forall (fun kv => reads_back (snd kv)) ((k, v) :: m) ->
  Forall (fun k' => named k' = true) (k :: map fst m) ->
  List.NoDup (map fst acc ++ k :: map fst m) ->
  (list_sum (map (fun kv => S (weight (snd kv))) ((k, v) :: m)) <= fuel)%nat ->
  parse_members fuel acc
    (member_text (k, v) ++ continued (map member_text m) (ch "}") rest) =
  Ok (acc ++ (k, v) :: m, rest).
Proof.
  induction m as [|[k' v'] m IH]; intros k v acc fuel rest Hall Hnamed Hnd Hfuel;
    inversion Hall as [|? ? Hv Hm]; subst; unfold reads_back in Hv;
    inversion Hnamed as [|? ? Hk Hks]; subst;
    destruct fuel as [|fuel]; cbn [map list_sum fold_right snd] in Hfuel; try lia;
    assert (Hfresh : ~ In k (map fst acc))
      by (apply NoDup_remove_2 in Hnd; rewrite in_app_iff in Hnd; tauto);
    rewrite member_text_app; cbn [parse_members skip_ws];
    change (is_ws QUOTE) with false; cbv iota;
    change (QUOTE =? QUOTE) with true; cbv iota;
    rewrite parse_chars_quote_units; cbn [skip_ws];
    change (is_ws (ch ":")) with false; cbv iota;
    change (ch ":" =? ch ":") with true; cbv iota.
  - cbn [snd] in Hv. rewrite Hv; [| lia | reflexivity].
    cbn. now rewrite obj_set_fresh.
  - cbn [snd] in Hv.
    rewrite Hv; [| lia | now apply ends_numeral_continued; right].
    cbn [map]. rewrite continued_cons. cbn [skip_ws]. change (is_ws (ch ",")) with false.
    cbv iota. change (ch "," =? ch ",") with true. cbv iota.
    rewrite obj_set_fresh by assumption.
    rewrite (IH k' v' (acc ++ [(k, v)]) fuel rest); try assumption.
    + now rewrite <- app_assoc.
    + rewrite map_app, <- app_assoc. exact Hnd.
    + cbn [map list_sum fold_right snd]; lia.
Qed.

Lemma weight_element l y :
  In y l -> (weight y < list_sum (map (fun x => S (weight x)) l))%nat.
Proof.
  unfold list_sum. induction l as [|x l IH]; cbn [In map fold_right]; [easy|].
  intros [-> | Hy]; [lia | specialize (IH Hy); lia].
Qed.

Lemma weight_member (m : list (jsstring * json)) kv :
  In kv m ->
  (weight (snd kv) < list_sum (map (fun x => S (weight (snd x))) m))%nat.
Proof.
  unfold list_sum. induction m as [|x m IH]; cbn [In map fold_right]; [easy|].
  intros [-> | Hy]; [lia | specialize (IH Hy); lia].
Qed.

(** Every plain value is read back from its printed form. *)
Lemma parse_value_stringify v : plain v = true -> reads_back v.
Proof.
  remember (weight v) as n eqn:Hn. revert v Hn.
  induction n as [n IH] using lt_wf_ind. intros v Hn Hplain fuel rest Hfuel Hrest.
  destruct v as [| [|] | z | d | s | l | m]; try discriminate;
    destruct fuel as [|fuel]; try (cbn in Hfuel; lia); try reflexivity.
  - change (stringify (JNum z)) with (number_to_string z).
    rewrite parse_value_number. now rewrite parse_number_to_string.
  - cbn [stringify]. unfold quote. cbn [app]. rewrite <- app_assoc. cbn [app].
    cbn [parse_value skip_ws]. change (is_ws QUOTE) with false. cbv iota.
    change (QUOTE =? ch "[") with false. change (QUOTE =? ch "{") with false.
    change (QUOTE =? QUOTE) with true. cbv iota.
    now rewrite parse_chars_quote_units.
  - destruct l as [|x l]; [reflexivity|].
    cbn [stringify]. cbn [app]. rewrite <- app_assoc. cbn [app].
    cbn [map]. rewrite commas_continued.
    cbn [plain forallb] in Hplain. apply andb_true_iff in Hplain as [Hx Hl].
    rewrite parse_value_array by now apply opens_value_stringify.
    rewrite parse_elements_stringify; [reflexivity | | cbn [weight] in Hfuel; lia].
    apply List.Forall_forall. intros y Hy.
    apply (IH (weight y)); [| reflexivity |].
    + subst n. cbn [weight]. pose proof (weight_element (x :: l) y Hy). lia.
    + destruct Hy as [<- | Hy]; [assumption|].
      rewrite forallb_forall in Hl. now apply Hl.
  - destruct m as [|[k v] m]; [reflexivity|].
    cbn [stringify]. cbn [app]. rewrite <- app_assoc. cbn [app].
    change (fun kv : jsstring * json => quote (fst kv) ++ ch ":" :: stringify (snd kv))
      with member_text.
    cbn [map]. rewrite commas_continued.
    cbn [plain] in Hplain.
    apply andb_true_iff in Hplain as [Hplain Hnd].
    apply andb_true_iff in Hplain as [Hvals Hnamed].
    rewrite parse_value_object.
    2:{ rewrite member_text_app. repeat split. }
    rewrite (parse_members_stringify m k v []);
      [reflexivity | | | | cbn [weight] in Hfuel; lia].
    + apply List.Forall_forall. intros kv Hkv.
      apply (IH (weight (snd kv))); [| reflexivity |].
      * subst n. cbn [weight]. pose proof (weight_member ((k, v) :: m) kv Hkv). lia.
      * rewrite forallb_forall in Hvals. now apply Hvals.
    + apply List.Forall_forall. intros k0 Hk0.
      rewrite forallb_forall in Hnamed. now apply Hnamed.
    + apply distinct_NoDup in Hnd. exact Hnd.
Qed.

(** ** Fuel *)

Ltac case_scrutinee :=
  match goal with
  | |- context [match skip_ws ?s with _ => _ end] => destruct (skip_ws s)
  | |- context [if ?b then _ else _] => destruct b
  | |- context [match parse_chars ?s with _ => _ end] =>
      destruct (parse_chars s) as [[? ?]|]
  end.

Ltac case_call IH call :=
  let E := fresh "E" in
  destruct call as [[? ?]| |] eqn:E;
  [ rewrite IH, E by (rewrite E; discriminate)
  | rewrite IH, E by (rewrite E; discriminate)
  | congruence ].

Lemma fuel_stable f : forall f', (f <= f')%nat -> stable f f'.
Proof.
  unfold stable, finished.
  induction f as [|f IH]; intros f' Hle.
  { repeat split; intros; cbn in *; congruence. }
  destruct f' as [|f']; [lia|].
  destruct (IH f' ltac:(lia)) as (IHv & IHe & IHm).
  repeat split.
  - intros s. cbn [parse_value].
    repeat (case_scrutinee; try reflexivity).
    + match goal with
      | |- context [parse_elements f ?r] => case_call IHe (parse_elements f r)
      end; reflexivity.
    + match goal with
      | |- context [parse_members f [] ?r] => case_call IHm (parse_members f [] r)
      end; reflexivity.
  - intros s. cbn [parse_elements].
    case_call IHv (parse_value f s); [|reflexivity].
    repeat (case_scrutinee; try reflexivity).
    match goal with
    | |- context [parse_elements f ?r] => case_call IHe (parse_elements f r)
    end; reflexivity.
  - intros acc s. cbn [parse_members].
    repeat (case_scrutinee; try reflexivity).
    match goal with
    | |- context [parse_value f ?r] => case_call IHv (parse_value f r)
    end; [|reflexivity].
    repeat (case_scrutinee; try reflexivity).
    apply IHm.
Qed.

Lemma skip_ws_length s : (length (skip_ws s) <= length s)%nat.
Proof.
  induction s as [|c r IH]; cbn [skip_ws length]; [lia|].
  destruct (is_ws c); cbn [length]; lia.
Qed.

Lemma parse_chars_length s : forall str rest,
  parse_chars s = Some (str, rest) -> (length rest < length s)%nat.
Proof.
  remember (length s) as n eqn:Hn. revert s Hn.
  induction n as [n IH] using lt_wf_ind. intros s Hn str rest.
  destruct s as [|c r]; [discriminate|]. cbn [parse_chars].
  destruct (c =? QUOTE).
  { intros [= <- <-]. subst n. cbn [length]. lia. }
  destruct (c =? BACKSLASH).
  - destruct r as [|e r1]; [discriminate|].
    destruct (e =? ch "u").
    + destruct r1 as [|h1 [|h2 [|h3 [|h4 r2]]]]; try discriminate.
      destruct (read_hex4 h1 h2 h3 h4); [|discriminate].
      destruct (parse_chars r2) as [[str' rest']|] eqn:E; [|discriminate].
      intros [= <- <-].
      apply (IH (length r2)) in E; subst n; cbn [length] in *; lia.
    + destruct (unescape e); [|discriminate].
      destruct (parse_chars r1) as [[str' rest']|] eqn:E; [|discriminate].
      intros [= <- <-].
      apply (IH (length r1)) in E; subst n; cbn [length] in *; lia.
  - destruct (c <? 32); [discriminate|].
    destruct (parse_chars r) as [[str' rest']|] eqn:E; [|discriminate].
    intros [= <- <-].
    apply (IH (length r)) in E; subst n; cbn [length] in *; lia.
Qed.

Lemma read_digits_length s : forall d r,
  read_digits s = (d, r) ->
  (length r <= length s)%nat /\ (d <> Decimal.Nil -> (length r < length s)%nat).
Proof.
  induction s as [|c s IH]; intros d r; cbn [read_digits].
  - intros [= <- <-]. split; [lia | congruence].
  - destruct (digit_of c).
    + destruct (read_digits s) as [d' r'] eqn:E. intros [= <- <-].
      destruct (IH d' r' eq_refl) as [Hle _]. cbn [length]. split; lia.
    + intros [= <- <-]. split; [lia | congruence].
Qed.

Lemma strip_prefix_length p : forall s rest,
  strip_prefix p s = Some rest -> (length rest <= length s)%nat.
Proof.
  induction p as [|a p IH]; intros [|b s] rest; cbn [strip_prefix length];
    try discriminate; try (intros [= <-]; cbn [length]; lia).
  destruct (a =? b); [|discriminate]. intros H. apply IH in H. lia.
Qed.

Lemma read_sign_length s neg r :
  read_sign s = (neg, r) -> (length r <= length s)%nat.
Proof.
  destruct s as [|c s]; cbn [read_sign]; [intros [= <- <-]; lia|].
  destruct (c =? ch "-"); intros [= <- <-]; cbn [length]; lia.
Qed.

Lemma read_exp_sign_length s neg r :
  read_exp_sign s = (neg, r) -> (length r <= length s)%nat.
Proof.
  destruct s as [|c s]; cbn [read_exp_sign]; [intros [= <- <-]; lia|].
  destruct (c =? ch "+"); [intros [= <- <-]; cbn [length]; lia|].
  destruct (c =? ch "-"); intros [= <- <-]; cbn [length]; lia.
Qed.

Lemma read_frac_length s f r :
  read_frac s = Some (f, r) -> (length r <= length s)%nat.
Proof.
  destruct s as [|c s]; cbn [read_frac]; [intros [= <- <-]; lia|].
  destruct (c =? ch ".").
  - destruct (read_digits s) as [d r'] eqn:E.
    apply read_digits_length in E as [Hle _].
    destruct d; intros [= <- <-]; cbn [length]; lia.
  - intros [= <- <-]. lia.
Qed.

Lemma read_exp_length s e r :
  read_exp s = Some (e, r) -> (length r <= length s)%nat.
Proof.
  destruct s as [|c s]; cbn [read_exp]; [intros [= <- <-]; lia|].
  destruct ((c =? ch "e") || (c =? ch "E")).
  - destruct (read_exp_sign s) as [neg r1] eqn:E.
    apply read_exp_sign_length in E.
    destruct (read_digits r1) as [d r'] eqn:E'.
    apply read_digits_length in E' as [Hle _].
    destruct d; intros [= <- <-]; cbn [length]; lia.
  - intros [= <- <-]. lia.
Qed.

Lemma unorm_nil d : Decimal.uint_beq (Decimal.unorm d) d = true -> d <> Decimal.Nil.
Proof. intros H ->. discriminate. Qed.

Lemma parse_number_length s v rest :
  parse_number s = Some (v, rest) -> (length rest < length s)%nat.
Proof.
  unfold parse_number.
  destruct (read_sign s) as [neg s1] eqn:E1. apply read_sign_length in E1.
  destruct (read_digits s1) as [d s2] eqn:E2.
  apply read_digits_length in E2 as [_ E2].
  destruct (Decimal.uint_beq (Decimal.unorm d) d) eqn:E; [|discriminate].
  specialize (E2 (unorm_nil d E)).
  destruct (read_frac s2) as [[f s3]|] eqn:E3; [|discriminate].
  apply read_frac_length in E3.
  destruct (read_exp s3) as [[e s4]|] eqn:E4; [|discriminate].
  apply read_exp_length in E4.
  destruct f, e; intros [= <- <-]; lia.
Qed.

Ltac measure_hyps :=
  repeat match goal with
  | H : skip_ws ?s = _ |- _ =>
      let H' := fresh "L" in
      pose proof (skip_ws_length s) as H'; rewrite H in H'; clear H
  | H : parse_chars _ = Some (_, _) |- _ => apply parse_chars_length in H
  | H : strip_prefix _ _ = Some _ |- _ => apply strip_prefix_length in H
  | H : parse_number _ = Some (_, _) |- _ => apply parse_number_length in H
  end; cbn [length] in *.

Lemma fuel_enough f :
  (forall s, (2 * length s < f)%nat -> consumes (parse_value f s) s) /\
  (forall s, (2 * length s + 1 < f)%nat -> consumes (parse_elements f s) s) /\
  (forall acc s, (2 * length s + 1 < f)%nat ->
                 consumes (parse_members f acc s) s).
Proof.
  induction f as [|f (IHv & IHe & IHm)]; [repeat split; intros; lia|].
  repeat split.
  - intros s Hs. cbn [parse_value].
    destruct (skip_ws s) as [|c r] eqn:E1; [exact I|].
    destruct (c =? ch "[").
    { destruct (skip_ws r) as [|c' r'] eqn:E2; [exact I|].
      destruct (c' =? ch "]"); [measure_hyps; cbn [consumes]; lia|].
      measure_hyps.
      specialize (IHe r ltac:(lia)).
      destruct (parse_elements f r) as [[? ?]| |]; cbn [consumes] in *; lia. }
    destruct (c =? ch "{").
    { destruct (skip_ws r) as [|c' r'] eqn:E2; [exact I|].
      destruct (c' =? ch "}"); [measure_hyps; cbn [consumes]; lia|].
      measure_hyps.
      specialize (IHm [] r ltac:(lia)).
      destruct (parse_members f [] r) as [[? ?]| |]; cbn [consumes] in *; lia. }
    destruct (c =? QUOTE).
    { destruct (parse_chars r) as [[? ?]|] eqn:E2; [|exact I].
      measure_hyps. cbn [consumes]. lia. }
    destruct (c =? ch "t").
    { destruct (strip_prefix (js "rue") r) eqn:E2; [|exact I].
      measure_hyps. cbn [consumes]. lia. }
    destruct (c =? ch "f").
    { destruct (strip_prefix (js "alse") r) eqn:E2; [|exact I].
      measure_hyps. cbn [consumes]. lia. }
    destruct (c =? ch "n").
    { destruct (strip_prefix (js "ull") r) eqn:E2; [|exact I].
      measure_hyps. cbn [consumes]. lia. }
    destruct (parse_number (c :: r)) as [[? ?]|] eqn:E2; [|exact I].
    measure_hyps. cbn [consumes]. lia.
  - intros s Hs. cbn [parse_elements].
    specialize (IHv s ltac:(lia)).
    destruct (parse_value f s) as [[v r]| |]; cbn [consumes] in IHv; [|exact I|easy].
    destruct (skip_ws r) as [|c r'] eqn:E1; [exact I|].
    measure_hyps.
    destruct (c =? ch ",").
    + specialize (IHe r' ltac:(lia)).
      destruct (parse_elements f r') as [[? ?]| |]; cbn [consumes] in *; lia.
    + destruct (c =? ch "]"); cbn [consumes]; lia.
  - intros acc s Hs. cbn [parse_members].
    destruct (skip_ws s) as [|c r] eqn:E1; [exact I|].
    destruct (c =? QUOTE); [|exact I].
    destruct (parse_chars r) as [[k r1]|] eqn:E2; [|exact I].
    destruct (skip_ws r1) as [|c1 r2] eqn:E3; [exact I|].
    destruct (c1 =? ch ":"); [|exact I].
    measure_hyps.
    specialize (IHv r2 ltac:(lia)).
    destruct (parse_value f r2) as [[v r3]| |]; cbn [consumes] in IHv; [|exact I|easy].
    destruct (skip_ws r3) as [|c3 r4] eqn:E4; [exact I|].
    measure_hyps.
    destruct (c3 =? ch ",").
    + specialize (IHm (obj_set k v acc) r4 ltac:(lia)).
      destruct (parse_members f (obj_set k v acc) r4) as [[? ?]| |];
        cbn [consumes] in *; lia.
    + destruct (c3 =? ch "}"); cbn [consumes]; lia.
Qed.

(** [JSON.parse] never stops for lack of fuel: it returns a value or
    throws. *)
Lemma parse_value_finished text :
  finished (parse_value (fuel_for text) text).
Proof.
  pose proof (proj1 (fuel_enough (fuel_for text)) text) as H.
  unfold fuel_for in *. specialize (H ltac:(lia)).
  intros E. rewrite E in H. exact H.
Qed.

(** ** [JSON.parse] after [JSON.stringify] *)

Lemma parse_stringify v : plain v = true -> parse (stringify v) = Some v.
Proof.
  intros Hplain. unfold parse.
  set (text := stringify v).
  pose proof (parse_value_finished text) as Hfin.
  pose proof (parse_value_stringify v Hplain
                (Nat.max (weight v) (fuel_for text)) [] ltac:(lia) eq_refl) as Hmax.
  rewrite app_nil_r in Hmax. fold text in Hmax.
  destruct (fuel_stable (fuel_for text) (Nat.max (weight v) (fuel_for text))
              ltac:(lia)) as (Hstable & _ & _).
  rewrite <- (Hstable text Hfin), Hmax. reflexivity.
Qed.

Lemma plain_entry e : plain (HistoryEntry.to_json e) = true.
Proof. reflexivity. Qed.

Lemma plain_history l : plain (history_json l) = true.
Proof.
  unfold history_json. cbn [plain]. apply forallb_forall.
  intros v Hv. apply in_map_iff in Hv as (e & <- & _). apply plain_entry.
Qed.

Lemma history_json_inj l l' : history_json l = history_json l' -> l = l'.
Proof.
  unfold history_json. intros [= H]. revert l' H.
  induction l as [|e l IH]; intros [|e' l']; cbn [map]; try discriminate;
    [reflexivity|].
  intros [= H1 H2 H3 H4 H5 H]. f_equal; [|now apply IH].
  destruct e, e'; cbn in *; congruence.
Qed.

(** ** The reward pick *)

Lemma floor_random (r : Q) :
  (0 <= r)%Q -> (r < 1)%Q -> (0 <= Qfloor (r * inject_Z 4) < 4)%Z.
Proof.
  destruct r as [n d]. unfold Qle, Qlt, Qfloor, Qmult, inject_Z.
  cbn [Qnum Qden]. intros Hlo Hhi.
  rewrite Pos.mul_1_r. split.
  - apply Z.div_pos; lia.
  - apply Z.div_lt_upper_bound; lia.
Qed.

Lemma drawn_reward_catalog env :
  (0 <= Math_random env)%Q -> (Math_random env < 1)%Q ->
  exists reward, drawn_reward env = Some reward /\ In reward rewards.
Proof.
  intros Hlo Hhi. unfold drawn_reward, array_get.
  change (Z.of_nat (length rewards)) with 4%Z.
  destruct (floor_random _ Hlo Hhi) as [H0 H4].
  set (i := Qfloor (Math_random env * inject_Z 4)) in *.
  destruct (Z.ltb_spec i 0); [lia|].
  assert (Hi : Z.to_nat i = 0%nat \/ Z.to_nat i = 1%nat \/
               Z.to_nat i = 2%nat \/ Z.to_nat i = 3%nat) by lia.
  destruct Hi as [-> | [-> | [-> | ->]]]; eexists; (split; [reflexivity|]);
    cbn; tauto.
Qed.

(** ** What each event does *)

Lemma dispatch_draw_none x env :
  selectedCard (state x) = None -> dispatch draw env x = Some (guided x).
Proof.
  intros Hsel. unfold dispatch, handler, handleDraw. rewrite Hsel.
  cbn. unfold guided. now rewrite Hsel.
Qed.

Lemma dispatch_draw_some x env card :
  selectedCard (state x) = Some card ->
  dispatch draw env x =
  match drawn_reward env, spread (history (state x)) with
  | Some reward, Some items => Some (drawn card reward items env x)
  | _, _ => None
  end.
Proof.
  intros Hsel. unfold dispatch, handler, handleDraw. rewrite Hsel.
  cbn [run_state call_state run_storage call_storage existsb sets_history
       history orb].
  destruct (drawn_reward env) as [reward|]; [|reflexivity].
  destruct (spread (history (state x))) as [items|]; [|reflexivity].
  cbn. unfold drawn. now rewrite Hsel.
Qed.

Lemma dispatch_select_same x env index :
  selectedCard (state x) = Some index ->
  dispatch (selectCard index) env x = dispatch draw env x.
Proof.
  intros Hsel. unfold dispatch, handler, handleCardSelect.
  now rewrite Hsel, Z.eqb_refl.
Qed.

Lemma dispatch_select_other x env index :
  selectedCard (state x) <> Some index ->
  dispatch (selectCard index) env x = Some (chosen index x).
Proof.
  intros Hsel. unfold dispatch, handler, handleCardSelect.
  destruct (selectedCard (state x)) as [card|]; [|reflexivity].
  destruct (Z.eqb_spec card index) as [->|]; [congruence | reflexivity].
Qed.

Lemma dispatch_close x env : dispatch closeModal env x = Some (closed x).
Proof. reflexivity. Qed.

Lemma dispatch_clear x env : dispatch clearHistory env x = Some (cleared x).
Proof. reflexivity. Qed.

Lemma take_limit (e : json) items :
  take HISTORY_LIMIT (e :: items) = e :: take (HISTORY_LIMIT - 1) items.
Proof. reflexivity. Qed.

(** ** Rehydration *)

Lemma rehydrate_array l store :
  plain (JArr l) = true ->
  initial_history (history_effect (JArr l) (Some store)) = JArr l.
Proof.
  intros Hplain. unfold initial_history, history_effect, getItem, setItem.
  rewrite lookup_insert_eq.
  pose proof (parse_stringify (JArr l) Hplain) as Hparse.
  change (stringify (JArr l))
    with (ch "[" :: commas (map stringify l) ++ [ch "]"]) in *.
  cbv beta iota. now rewrite Hparse.
Qed.

Lemma initial_history_stored store stored :
  getItem HISTORY_STORAGE_KEY store = Some stored ->
  initial_history (Some store) =
  match stored with
  | [] => JArr []
  | _ :: _ => match parse stored with Some v => v | None => JArr [] end
  end.
Proof.
  intros Hget. unfold initial_history. rewrite Hget. now destruct stored.
Qed.

Lemma within_limit_empty : within_limit (JArr []).
Proof. exists []. split; [reflexivity | cbn; lia]. Qed.

Lemma within_limit_take (items : list json) :
  within_limit (JArr (take HISTORY_LIMIT items)).
Proof.
  eexists. split; [reflexivity|]. rewrite length_take. lia.
Qed.

Lemma dispatch_within_limit ev env x y :
  within_limit (history (state x)) -> dispatch ev env x = Some y ->
  within_limit (history (state y)).
Proof.
  intros Hx Hy.
  assert (Hdraw : forall z, dispatch draw env x = Some z ->
                            within_limit (history (state z))).
  { intros z Hz. destruct (selectedCard (state x)) as [card|] eqn:Hsel.
    - rewrite (dispatch_draw_some x env card Hsel) in Hz.
      destruct (drawn_reward env); [|discriminate].
      destruct (spread (history (state x))); [|discriminate].
      injection Hz as <-. apply within_limit_take.
    - rewrite (dispatch_draw_none x env Hsel) in Hz. now injection Hz as <-. }
  destruct ev as [index| | |].
  - destruct (decide (selectedCard (state x) = Some index)) as [Hsel|Hsel].
    + rewrite (dispatch_select_same x env index Hsel) in Hy. now apply Hdraw.
    + rewrite (dispatch_select_other x env index Hsel) in Hy.
      now injection Hy as <-.
  - now apply Hdraw.
  - rewrite dispatch_close in Hy. now injection Hy as <-.
  - rewrite dispatch_clear in Hy. injection Hy as <-. apply within_limit_empty.
Qed.

(** The initializer falls back to the empty log when [window] is
    undefined, the key is absent, the stored string is empty or it is not
    JSON. *)
Lemma initial_history_default w :
  match w with
  | None => True
  | Some store =>
      match getItem HISTORY_STORAGE_KEY store with
      | None => True
      | Some stored => JSON.parse stored = None
      end
  end ->
  initial_history w = JArr [].
Proof.
  destruct w as [store|]; [|reflexivity]. unfold initial_history.
  destruct (getItem HISTORY_STORAGE_KEY store) as [[|c r]|]; try reflexivity.
  now intros ->.
Qed.

(** ** The store follows the log *)

(** In every reachable session with a store, the key holds the text of the
    current [history]: the effect wrote it at mount and after every
    [setHistory]. In particular the key is never absent. *)
Lemma reachable_store_holds_history w x :
  reachable w x ->
  forall store, window x = Some store ->
    getItem HISTORY_STORAGE_KEY store = Some (stringify (history (state x))).
Proof.
  assert (Heffect : forall h w' store,
            history_effect h w' = Some store ->
            getItem HISTORY_STORAGE_KEY store = Some (stringify h)).
  { intros h [store'|] store; [|discriminate]. intros [= <-].
    unfold getItem, setItem. apply lookup_insert_eq. }
  induction 1 as [|x ev env y _ IH Hstep]; intros store Hstore.
  { exact (Heffect _ _ _ Hstore). }
  assert (Hdraw : forall z, dispatch draw env x = Some z -> window z = Some store ->
            getItem HISTORY_STORAGE_KEY store = Some (stringify (history (state z)))).
  { intros z Hz Hw. destruct (selectedCard (state x)) as [card|] eqn:Hsel.
    - rewrite (dispatch_draw_some x env card Hsel) in Hz.
      destruct (drawn_reward env); [|discriminate].
      destruct (spread (history (state x))); [|discriminate].
      injection Hz as <-. exact (Heffect _ _ _ Hw).
    - rewrite (dispatch_draw_none x env Hsel) in Hz. injection Hz as <-.
      now apply IH. }
  destruct ev as [index| | |].
  - destruct (decide (selectedCard (state x) = Some index)) as [Hsel|Hsel].
    + rewrite (dispatch_select_same x env index Hsel) in Hstep. now apply Hdraw.
    + rewrite (dispatch_select_other x env index Hsel) in Hstep.
      injection Hstep as <-. now apply IH.
  - now apply Hdraw.
  - rewrite dispatch_close in Hstep. injection Hstep as <-. now apply IH.
  - rewrite dispatch_clear in Hstep. injection Hstep as <-.
    exact (Heffect _ _ _ Hstore).
Qed.

(** * The claims *)

(** C1 (the code departs from the claim). [clearHistory()] on a session with
    a store: the in-memory History Log ends empty, but the persisted key does
    not end removed. [handleClearHistory] removes it, and the effect that
    depends on [history] then runs, because [setHistory([])] stored a new
    array, and writes the text of the empty array under the key again. *)
Theorem clearHistory_writes_empty_array (s : State) (store : Storage) (env : Env) :
  exists y store',
    dispatch clearHistory env {| state := s; window := Some store |} = Some y /\
    history (state y) = JArr [] /\
    window y = Some store' /\
    getItem HISTORY_STORAGE_KEY store' = Some (js "[]") /\
    store' = setItem HISTORY_STORAGE_KEY (js "[]")
               (removeItem HISTORY_STORAGE_KEY store).
Proof.
  eexists _, _. rewrite dispatch_clear. unfold cleared. cbn.
  repeat split. unfold getItem, setItem. apply lookup_insert_eq.
Qed.

(** The same at one input: a draw on card 3, then [clearHistory()]. *)
Example clearHistory_after_a_draw :
  (dispatch draw sample_env selected_session ≫= dispatch clearHistory sample_env)
  = Some
      {| state :=
           {| selectedCard := Some 2%Z;
              currentReward := Some mystery;
              statusMessage := js "You opened Card 3!";
              isDrawing := false;
              isModalOpen := true;
              history := JArr [] |};
         window := Some (store_with (js "[]")) |}.
Proof. reflexivity. Qed.

(** C2, as stated, fails: the stored text [[1]] is valid JSON that is not
    shaped as an array of HistoryEntry records, and initialization adopts
    it as the History Log. *)
Lemma malformed_value_adopted :
  ~ (forall store stored,
       getItem HISTORY_STORAGE_KEY store = Some stored ->
       malformed stored ->
       history (state (mount (Some store))) = JArr []).
Proof.
  intros H.
  specialize (H (store_with (js "[1]")) (js "[1]") eq_refl eq_refl).
  vm_compute in H. discriminate.
Qed.

(** A stored object is adopted too. With the one property [length] of value
    0 the page shows it as an empty log; once a card is selected the next draw
    fails, since the spread in the updater of [handleDraw] throws. *)
Example draw_on_adopted_object :
  reachable (Some object_store) object_session /\
  history (state object_session) = length_zero_object /\
  selectedCard (state object_session) = Some 0%Z /\
  dispatch draw sample_env object_session = None.
Proof.
  split; [|repeat split].
  apply (reachable_dispatch _ (mount (Some object_store))
           (selectCard 0) sample_env); [apply reachable_mount | reflexivity].
Qed.

(** C2 (amended). For every stored value that is not valid JSON,
    initialization yields an empty History Log: the SyntaxError of
    [JSON.parse] is caught. A stored value that is valid JSON is adopted as
    parsed, whatever its shape; the initializer does not inspect it. *)
Theorem initialization_parses_without_validation
    (store : Storage) (stored : jsstring) :
  getItem HISTORY_STORAGE_KEY store = Some stored ->
  (JSON.parse stored = None -> history (state (mount (Some store))) = JArr []) /\
  (forall v, JSON.parse stored = Some v ->
             history (state (mount (Some store))) = v).
Proof.
  intros Hget. cbn [mount state initial_state history].
  rewrite (initial_history_stored store stored Hget). split.
  - intros ->. now destruct stored.
  - intros v Hv. destruct stored; [discriminate|]. now rewrite Hv.
Qed.

Lemma initialization_parses_without_validation_witness :
  getItem HISTORY_STORAGE_KEY (store_with (js "oops")) = Some (js "oops") /\
  JSON.parse (js "oops") = None /\
  (JSON.parse (js "oops") = None ->
   history (state (mount (Some (store_with (js "oops"))))) = JArr []) /\
  (forall v, JSON.parse (js "oops") = Some v ->
             history (state (mount (Some (store_with (js "oops"))))) = v).
Proof.
  split; [reflexivity|]. split; [reflexivity|].
  apply (initialization_parses_without_validation
           (store_with (js "oops")) (js "oops")).
  reflexivity.
Defined.

(** C3, as stated, fails: a store that holds an array of eleven well-formed
    entries is rehydrated as it is. *)
Lemma rehydration_exceeds_limit :
  ~ (forall w x, reachable w x -> within_limit (history (state x))).
Proof.
  intros H.
  destruct (H (Some (store_with (JSON.stringify (history_json eleven_entries))))
              _ (reachable_mount _)) as (l & Hl & Hlen).
  cbn [mount state initial_state history] in Hl.
  change (Some (store_with (JSON.stringify (history_json eleven_entries))))
    with (history_effect (history_json eleven_entries) (Some empty_store)) in Hl.
  unfold history_json in Hl at 1.
  rewrite rehydrate_array in Hl by apply plain_history.
  injection Hl as <-. vm_compute in Hlen. lia.
Qed.

(** C3 (amended). When initialization rehydrated an array of at most 10
    entries, the History Log has at most 10 entries in every reachable
    state, after every operation; a draw on a log [l] leaves the new entry
    followed by the 9 most recent of [l], so that the oldest is dropped when
    [l] had 10. Initialization itself adopts a longer stored array as it is. *)
Theorem history_within_limit (w : Window) (x : Session) :
  within_limit (initial_history w) ->
  reachable w x ->
  within_limit (history (state x)) /\
  (forall env card reward l,
     selectedCard (state x) = Some card ->
     drawn_reward env = Some reward ->
     history (state x) = JArr l ->
     exists y, dispatch draw env x = Some y /\
       history (state y) =
       JArr (HistoryEntry.to_json (new_entry card reward env)
             :: take (HISTORY_LIMIT - 1) l)).
Proof.
  intros Hinit Hreach. split.
  - induction Hreach as [|x ev env y _ IH Hstep]; [exact Hinit|].
    now apply (dispatch_within_limit ev env x y).
  - intros env card reward l Hsel Hreward Hl.
    rewrite (dispatch_draw_some x env card Hsel), Hreward, Hl.
    cbn [spread]. eexists. split; reflexivity.
Qed.

Lemma history_within_limit_witness :
  within_limit (initial_history (Some empty_store)) /\
  reachable (Some empty_store) drawn_session /\
  within_limit (history (state drawn_session)) /\
  (forall env card reward l,
     selectedCard (state drawn_session) = Some card ->
     drawn_reward env = Some reward ->
     history (state drawn_session) = JArr l ->
     exists y, dispatch draw env drawn_session = Some y /\
       history (state y) =
       JArr (HistoryEntry.to_json (new_entry card reward env)
             :: take (HISTORY_LIMIT - 1) l)).
Proof.
  assert (Hreach : reachable (Some empty_store) drawn_session).
  { apply (reachable_dispatch _ (chosen 2 (mount (Some empty_store)))
             draw sample_env); [|reflexivity].
    apply (reachable_dispatch _ (mount (Some empty_store))
             (selectCard 2) sample_env); [|reflexivity].
    apply reachable_mount. }
  split; [apply within_limit_empty|]. split; [exact Hreach|].
  apply (history_within_limit (Some empty_store) drawn_session).
  - apply within_limit_empty.
  - exact Hreach.
Defined.

(** Eleven draws in a row on card 1 from an empty log: ten entries are
    left, the newest first, and the first one drawn is gone. *)
Example eleven_draws :
  let env (k : nat) : Env :=
    {| Math_random := 1 # 4;
       Date_now_id := Z.of_nat k;
       Math_random_hex := js "0.4";
       Date_now_timestamp := Z.of_nat k |} in
  let step (o : option Session) (k : nat) : option Session :=
    o ≫= dispatch draw (env k) in
  let first := chosen 0 (mount (Some empty_store)) in
  let entry (k : nat) : HistoryEntry.t :=
    {| HistoryEntry.id := number_to_string (Z.of_nat k) ++ js "-4";
       HistoryEntry.cardNumber := 1;
       HistoryEntry.rewardTitle := Reward.title coupon;
       HistoryEntry.rewardIcon := Reward.icon coupon;
       HistoryEntry.timestamp := Z.of_nat k |} in
  history <$> (state <$> foldl step (Some first) (seq 1 11)) =
  Some (history_json (map entry [11; 10; 9; 8; 7; 6; 5; 4; 3; 2]%nat)).
Proof. vm_compute. reflexivity. Qed.

(** C4, as stated, fails: in the session reached from a store that holds
    the object with the one property [length] of value 0, with card 1
    selected, [draw()] sets no reward, logs no entry and opens no modal: the
    updater throws on the spread of the adopted object. *)
Lemma selected_draw_can_throw :
  ~ (forall w x env card,
       reachable w x ->
       selectedCard (state x) = Some card ->
       (0 <= Math_random env)%Q -> (Math_random env < 1)%Q ->
       exists reward y fields rest,
         In reward rewards /\
         dispatch draw env x = Some y /\
         currentReward (state y) = Some reward /\
         history (state y) = JArr (JObj fields :: rest) /\
         obj_get (js "cardNumber") fields = Some (JNum (card + 1)) /\
         obj_get (js "rewardTitle") fields =
           Some (JStr (Reward.title reward)) /\
         obj_get (js "rewardIcon") fields = Some (JStr (Reward.icon reward)) /\
         isModalOpen (state y) = true).
Proof.
  intros H.
  destruct draw_on_adopted_object as (Hreach & _ & Hsel & Hdraw).
  assert (Hlo : (0 <= Math_random sample_env)%Q) by (unfold Qle; cbn; lia).
  assert (Hhi : (Math_random sample_env < 1)%Q) by (unfold Qlt; cbn; lia).
  destruct (H _ _ sample_env 0%Z Hreach Hsel Hlo Hhi)
    as (reward & y & fields & rest & _ & Hy & _).
  rewrite Hdraw in Hy. discriminate.
Qed.

(** C4 (amended). In every state in which a card is selected and the
    History Log is an array [l] (with [Math.random()] in [0, 1)), [draw()]
    sets the current reward to one of the 4 catalog entries, puts exactly one
    new object in front of the History Log, cut to 10, and opens the modal.
    Read off the logged object, its [cardNumber] is the 1-indexed selected
    card, its [rewardTitle] and [rewardIcon] are those of the drawn reward,
    its [timestamp] and [id] come from the clock and the random source, and
    it has these five properties only. *)
Theorem draw_with_card_selected
    (x : Session) (env : Env) (card : Z) (l : list json) :
  selectedCard (state x) = Some card ->
  history (state x) = JArr l ->
  (0 <= Math_random env)%Q -> (Math_random env < 1)%Q ->
  exists reward y fields,
    In reward rewards /\ length rewards = 4%nat /\
    dispatch draw env x = Some y /\
    currentReward (state y) = Some reward /\
    history (state y) = JArr (JObj fields :: take (HISTORY_LIMIT - 1) l) /\
    obj_get (js "cardNumber") fields = Some (JNum (card + 1)) /\
    obj_get (js "rewardTitle") fields = Some (JStr (Reward.title reward)) /\
    obj_get (js "rewardIcon") fields = Some (JStr (Reward.icon reward)) /\
    obj_get (js "timestamp") fields = Some (JNum (Date_now_timestamp env)) /\
    obj_get (js "id") fields =
      Some (JStr (number_to_string (Date_now_id env) ++ js "-" ++
                  slice_from 2 (Math_random_hex env))) /\
    map fst fields =
      [js "id"; js "cardNumber"; js "rewardTitle"; js "rewardIcon";
       js "timestamp"] /\
    isModalOpen (state y) = true.
Proof.
  intros Hsel Hl Hlo Hhi.
  destruct (drawn_reward_catalog env Hlo Hhi) as (reward & Hreward & Hin).
  exists reward, (drawn card reward l env x).
  rewrite (dispatch_draw_some x env card Hsel), Hreward, Hl.
  eexists. split; [exact Hin|]. split; [reflexivity|].
  split; [reflexivity|]. split; [reflexivity|].
  split; [cbn [drawn state history HistoryEntry.to_json]; reflexivity|].
  repeat split.
Qed.

Lemma draw_with_card_selected_witness :
  selectedCard (state selected_session) = Some 2%Z /\
  history (state selected_session) = JArr [] /\
  (0 <= Math_random sample_env)%Q /\ (Math_random sample_env < 1)%Q /\
  exists reward y fields,
    In reward rewards /\ length rewards = 4%nat /\
    dispatch draw sample_env selected_session = Some y /\
    currentReward (state y) = Some reward /\
    history (state y) = JArr (JObj fields :: take (HISTORY_LIMIT - 1) []) /\
    obj_get (js "cardNumber") fields = Some (JNum (2 + 1)) /\
    obj_get (js "rewardTitle") fields = Some (JStr (Reward.title reward)) /\
    obj_get (js "rewardIcon") fields = Some (JStr (Reward.icon reward)) /\
    obj_get (js "timestamp") fields =
      Some (JNum (Date_now_timestamp sample_env)) /\
    obj_get (js "id") fields =
      Some (JStr (number_to_string (Date_now_id sample_env) ++ js "-" ++
                  slice_from 2 (Math_random_hex sample_env))) /\
    map fst fields =
      [js "id"; js "cardNumber"; js "rewardTitle"; js "rewardIcon";
       js "timestamp"] /\
    isModalOpen (state y) = true.
Proof.
  assert (Hlo : (0 <= Math_random sample_env)%Q) by (unfold Qle; cbn; lia).
  assert (Hhi : (Math_random sample_env < 1)%Q) by (unfold Qlt; cbn; lia).
  repeat (split; [first [reflexivity | assumption]|]).
  apply (draw_with_card_selected selected_session sample_env 2 []);
    first [reflexivity | assumption].
Defined.

(** C5. In every state with no card selected, [draw()] only sets the
    status message to the instruction to choose a card first: the History
    Log, the current reward, the modal flag, the other fields and the store
    are unchanged, and no entry is created. *)
Theorem draw_without_selection (x : Session) (env : Env) :
  selectedCard (state x) = None ->
  exists y,
    dispatch draw env x = Some y /\
    statusMessage (state y) = js "Choose a card first to start the draw." /\
    history (state y) = history (state x) /\
    currentReward (state y) = currentReward (state x) /\
    isModalOpen (state y) = isModalOpen (state x) /\
    selectedCard (state y) = None /\
    isDrawing (state y) = isDrawing (state x) /\
    window y = window x.
Proof.
  intros Hsel. exists (guided x). rewrite (dispatch_draw_none x env Hsel).
  repeat split; try reflexivity. exact Hsel.
Qed.

Lemma draw_without_selection_witness :
  selectedCard (state (mount (Some empty_store))) = None /\
  exists y,
    dispatch draw sample_env (mount (Some empty_store)) = Some y /\
    statusMessage (state y) = js "Choose a card first to start the draw." /\
    history (state y) = history (state (mount (Some empty_store))) /\
    currentReward (state y) = currentReward (state (mount (Some empty_store))) /\
    isModalOpen (state y) = isModalOpen (state (mount (Some empty_store))) /\
    selectedCard (state y) = None /\
    isDrawing (state y) = isDrawing (state (mount (Some empty_store))) /\
    window y = window (mount (Some empty_store)).
Proof.
  split; [reflexivity|].
  apply (draw_without_selection (mount (Some empty_store)) sample_env).
  reflexivity.
Defined.



(** Where card 3 is selected already, [selectCard(2)] then [draw()] are two
    draws; the sequence C6 speaks of starts where the card is not selected. *)
Example select_then_draw_on_selected_card :
  exists e1 e2,
    history <$> (state <$> (dispatch (selectCard 2) sample_env selected_session
                              ≫= dispatch draw sample_env)) =
    Some (JArr [e2; e1]).
Proof. eexists _, _. vm_compute. reflexivity. Qed.

(** C7. For every card index [i] in [0, 3], [selectCard(i)] when no card
    or another card is selected makes card [i] the selected one, sets the
    current reward to null and sets a non-empty guidance status message; the
    History Log, the modal flag and the store are left as they were. *)
Theorem select_another_card (i : Z) (x : Session) (env : Env) :
  (0 <= i <= 3)%Z ->
  selectedCard (state x) <> Some i ->
  exists y,
    dispatch (selectCard i) env x = Some y /\
    selectedCard (state y) = Some i /\
    currentReward (state y) = None /\
    statusMessage (state y) =
      js "Click again to open, or choose another card." /\
    statusMessage (state y) <> [] /\
    history (state y) = history (state x) /\
    isModalOpen (state y) = isModalOpen (state x) /\
    window y = window x.
Proof.
  intros _ Hsel. exists (chosen i x).
  rewrite (dispatch_select_other x env i Hsel).
  repeat split. discriminate.
Qed.

Lemma select_another_card_witness :
  (0 <= 1 <= 3)%Z /\
  selectedCard (state selected_session) <> Some 1%Z /\
  exists y,
    dispatch (selectCard 1) sample_env selected_session = Some y /\
    selectedCard (state y) = Some 1%Z /\
    currentReward (state y) = None /\
    statusMessage (state y) =
      js "Click again to open, or choose another card." /\
    statusMessage (state y) <> [] /\
    history (state y) = history (state selected_session) /\
    isModalOpen (state y) = isModalOpen (state selected_session) /\
    window y = window selected_session.
Proof.
  split; [lia|]. split; [discriminate|].
  apply (select_another_card 1 selected_session sample_env);
    [lia | discriminate].
Defined.

(** C8. For every non-empty History Log [l] of well-formed entries,
    writing it to the store as the effect does on every change of [history]
    and mounting a fresh session on that store yields the same ordered list
    of entries. *)
Theorem history_round_trip (l : list HistoryEntry.t) (store : Storage) :
  l <> [] ->
  Forall well_formed l ->
  history (state (mount (history_effect (history_json l) (Some store)))) =
  history_json l /\
  (forall l',
     history (state (mount (history_effect (history_json l) (Some store)))) =
     history_json l' -> l' = l).
Proof.
  intros _ _. cbn [mount state initial_state history].
  unfold history_json at 1 3.
  rewrite rehydrate_array by apply plain_history.
  split; [reflexivity|]. intros l' H. symmetry. now apply history_json_inj.
Qed.

Lemma history_round_trip_witness :
  [sample_entry 1; sample_entry 0] <> [] /\
  Forall well_formed [sample_entry 1; sample_entry 0] /\
  history (state (mount (history_effect
                           (history_json [sample_entry 1; sample_entry 0])
                           (Some empty_store)))) =
  history_json [sample_entry 1; sample_entry 0] /\
  (forall l',
     history (state (mount (history_effect
                              (history_json [sample_entry 1; sample_entry 0])
                              (Some empty_store)))) =
     history_json l' -> l' = [sample_entry 1; sample_entry 0]).
Proof.
  assert (Hwf : Forall well_formed [sample_entry 1; sample_entry 0]).
  { repeat constructor; cbn; lia. }
  split; [discriminate|]. split; [exact Hwf|].
  apply (history_round_trip [sample_entry 1; sample_entry 0] empty_store);
    [discriminate | exact Hwf].
Defined.

(** C9. In every state, [closeModal()] sets modal-open to false and leaves
    the selection, the current reward, the status message, the History Log,
    the drawing flag and the store unchanged; a second call leaves the
    session identical. *)
Theorem closeModal_frame (x : Session) (env env' : Env) :
  exists y,
    dispatch closeModal env x = Some y /\
    isModalOpen (state y) = false /\
    dispatch closeModal env' y = Some y /\
    selectedCard (state y) = selectedCard (state x) /\
    currentReward (state y) = currentReward (state x) /\
    statusMessage (state y) = statusMessage (state x) /\
    history (state y) = history (state x) /\
    isDrawing (state y) = isDrawing (state x) /\
    window y = window x.
Proof.
  exists (closed x). rewrite !dispatch_close. repeat split.
Qed.

(** C10, as stated, fails: in the session reached from a store that holds
    the object with the one property [length] of value 0, with card 1
    selected, [draw()] does not complete: the updater throws on the spread of
    the adopted object, and no further draw is possible. *)
Lemma draw_may_not_complete :
  ~ (forall w x env card,
       reachable w x ->
       selectedCard (state x) = Some card ->
       (0 <= Math_random env)%Q -> (Math_random env < 1)%Q ->
       exists y,
         dispatch draw env x = Some y /\
         selectedCard (state y) = Some card /\
         isDrawing (state y) = false).
Proof.
  intros H.
  destruct draw_on_adopted_object as (Hreach & _ & Hsel & Hdraw).
  assert (Hlo : (0 <= Math_random sample_env)%Q) by (unfold Qle; cbn; lia).
  assert (Hhi : (Math_random sample_env < 1)%Q) by (unfold Qlt; cbn; lia).
  destruct (H _ _ sample_env 0%Z Hreach Hsel Hlo Hhi) as (y & Hy & _).
  rewrite Hdraw in Hy. discriminate.
Qed.

(** C10 (amended). In every state in which a card is selected and the
    History Log is an array (with [Math.random()] in [0, 1)), [draw()] leaves
    the selected card index unchanged and the drawing flag false, so the draw
    button is enabled, and a further [draw()] on the same card draws again. *)
Theorem draw_keeps_selection
    (x : Session) (env env' : Env) (card : Z) (l : list json) :
  selectedCard (state x) = Some card ->
  history (state x) = JArr l ->
  (0 <= Math_random env)%Q -> (Math_random env < 1)%Q ->
  (0 <= Math_random env')%Q -> (Math_random env' < 1)%Q ->
  exists y,
    dispatch draw env x = Some y /\
    selectedCard (state y) = Some card /\
    isDrawing (state y) = false /\
    draw_button_disabled (state y) = false /\
    exists reward' z,
      dispatch draw env' y = Some z /\
      selectedCard (state z) = Some card /\
      isDrawing (state z) = false /\
      currentReward (state z) = Some reward' /\
      exists l', history (state y) = JArr l' /\
        history (state z) =
        JArr (HistoryEntry.to_json (new_entry card reward' env')
              :: take (HISTORY_LIMIT - 1) l').
Proof.
  intros Hsel Hl Hlo Hhi Hlo' Hhi'.
  destruct (drawn_reward_catalog env Hlo Hhi) as (reward & Hreward & _).
  destruct (drawn_reward_catalog env' Hlo' Hhi') as (reward' & Hreward' & _).
  exists (drawn card reward l env x).
  rewrite (dispatch_draw_some x env card Hsel), Hreward, Hl. cbn [spread].
  split; [reflexivity|]. split; [exact Hsel|]. split; [reflexivity|].
  split; [unfold draw_button_disabled, drawn; cbn; now rewrite Hsel|].
  exists reward'. eexists.
  rewrite (dispatch_draw_some (drawn card reward l env x) env' card Hsel),
    Hreward'.
  cbn [drawn state history spread].
  repeat split; [exact Hsel|]. eexists. split; reflexivity.
Qed.

Lemma draw_keeps_selection_witness :
  selectedCard (state selected_session) = Some 2%Z /\
  history (state selected_session) = JArr [] /\
  (0 <= Math_random sample_env)%Q /\ (Math_random sample_env < 1)%Q /\
  exists y,
    dispatch draw sample_env selected_session = Some y /\
    selectedCard (state y) = Some 2%Z /\
    isDrawing (state y) = false /\
    draw_button_disabled (state y) = false /\
    exists reward' z,
      dispatch draw sample_env y = Some z /\
      selectedCard (state z) = Some 2%Z /\
      isDrawing (state z) = false /\
      currentReward (state z) = Some reward' /\
      exists l', history (state y) = JArr l' /\
        history (state z) =
        JArr (HistoryEntry.to_json (new_entry 2 reward' sample_env)
              :: take (HISTORY_LIMIT - 1) l').
Proof.
  assert (Hlo : (0 <= Math_random sample_env)%Q) by (unfold Qle; cbn; lia).
  assert (Hhi : (Math_random sample_env < 1)%Q) by (unfold Qlt; cbn; lia).
  repeat (split; [first [reflexivity | assumption]|]).
  apply (draw_keeps_selection selected_session sample_env sample_env 2 []);
    first [reflexivity | assumption].
Defined.

(** * Further properties of the code *)

(** ** Shared facts *)

Lemma clicked_reachable w x : clicked w x -> reachable w x.
Proof.
  induction 1 as [|x ev env y _ IH _ Hstep]; [apply reachable_mount|].
  exact (reachable_dispatch w x ev env y IH Hstep).
Qed.

(** What one event leaves behind, by cases on the handler that ran. *)
Lemma dispatch_cases ev env x y :
  dispatch ev env x = Some y ->
  (ev = draw /\ selectedCard (state x) = None /\ y = guided x) \/
  (exists card reward items,
     selectedCard (state x) = Some card /\ drawn_reward env = Some reward /\
     spread (history (state x)) = Some items /\
     y = drawn card reward items env x) \/
  (exists index, ev = selectCard index /\
     selectedCard (state x) <> Some index /\ y = chosen index x) \/
  (ev = closeModal /\ y = closed x) \/
  (ev = clearHistory /\ y = cleared x).
Proof.
  intros Hy.
  assert (Hdraw : forall card,
    selectedCard (state x) = Some card -> dispatch draw env x = Some y ->
    exists card reward items,
       selectedCard (state x) = Some card /\ drawn_reward env = Some reward /\
       spread (history (state x)) = Some items /\
       y = drawn card reward items env x).
  { intros card Hsel Hz.
    rewrite (dispatch_draw_some x env card Hsel) in Hz.
    destruct (drawn_reward env) as [reward|] eqn:Hr; [|discriminate].
    destruct (spread (history (state x))) as [items|] eqn:Hs; [|discriminate].
    injection Hz as <-. now exists card, reward, items. }
  destruct ev as [index| | |].
  - destruct (decide (selectedCard (state x) = Some index)) as [Hsel|Hsel].
    + rewrite (dispatch_select_same x env index Hsel) in Hy.
      right. left. now apply (Hdraw index).
    + rewrite (dispatch_select_other x env index Hsel) in Hy.
      injection Hy as <-. right. right. left. now exists index.
  - destruct (selectedCard (state x)) as [card|] eqn:Hsel.
    + right. left. now apply (Hdraw card).
    + rewrite (dispatch_draw_none x env Hsel) in Hy. injection Hy as <-.
      now left.
  - rewrite dispatch_close in Hy. injection Hy as <-. tauto.
  - rewrite dispatch_clear in Hy. injection Hy as <-. tauto.
Qed.

Lemma history_json_cons e l n :
  JArr (take n (HistoryEntry.to_json e :: map HistoryEntry.to_json l)) =
  history_json (take n (e :: l)).
Proof.
  unfold history_json. f_equal.
  change (HistoryEntry.to_json e :: map HistoryEntry.to_json l)
    with (map HistoryEntry.to_json (e :: l)).
  apply firstn_map.
Qed.

Lemma history_json_items l items :
  spread (history_json l) = Some items -> items = map HistoryEntry.to_json l.
Proof. now intros [= <-]. Qed.

Lemma initial_history_of_text store l :
  plain (JArr l) = true ->
  getItem HISTORY_STORAGE_KEY store = Some (stringify (JArr l)) ->
  initial_history (Some store) = JArr l.
Proof.
  intros Hplain Hget. rewrite (initial_history_stored store _ Hget).
  pose proof (parse_stringify (JArr l) Hplain) as Hparse.
  change (stringify (JArr l))
    with (ch "[" :: commas (map stringify l) ++ [ch "]"]) in *.
  cbv beta iota. now rewrite Hparse.
Qed.

(** ** Persistence *)

(** X1. Reloading the page restores the log: in every reachable session
    whose History Log is a list of well-formed entries (a card number of 1 to
    4, a timestamp that is a safe integer), mounting a fresh session on the
    store of that session yields the very log it holds, and leaves the store
    as it is. *)
Theorem reload_restores_history
    (w : Window) (x : Session) (store : Storage) (l : list HistoryEntry.t) :
  reachable w x ->
  window x = Some store ->
  history (state x) = history_json l ->
  Forall well_formed l ->
  history (state (mount (Some store))) = history (state x) /\
  window (mount (Some store)) = Some store.
Proof.
  intros Hreach Hstore Hl _.
  pose proof (reachable_store_holds_history w x Hreach store Hstore) as Hget.
  rewrite Hl in *. cbn [mount state initial_state history window].
  unfold history_json in Hget.
  rewrite (initial_history_of_text store _ (plain_history l) Hget).
  split; [reflexivity|]. cbn [history_effect]. f_equal.
  unfold setItem. now apply insert_id.
Qed.

Lemma reachable_drawn_session : reachable (Some empty_store) drawn_session.
Proof.
  apply (reachable_dispatch _ (chosen 2 (mount (Some empty_store)))
           draw sample_env); [|reflexivity].
  apply (reachable_dispatch _ (mount (Some empty_store))
           (selectCard 2) sample_env); [|reflexivity].
  apply reachable_mount.
Defined.

Lemma reload_restores_history_witness :
  reachable (Some empty_store) drawn_session /\
  window drawn_session =
    Some (store_with (JSON.stringify (history (state drawn_session)))) /\
  history (state drawn_session) =
    history_json [new_entry 2 mystery sample_env] /\
  Forall well_formed [new_entry 2 mystery sample_env] /\
  history (state (mount (Some (store_with
     (JSON.stringify (history (state drawn_session))))))) =
  history (state drawn_session) /\
  window (mount (Some (store_with
     (JSON.stringify (history (state drawn_session)))))) =
  Some (store_with (JSON.stringify (history (state drawn_session)))).
Proof.
  assert (Hwf : Forall well_formed [new_entry 2 mystery sample_env]).
  { constructor; [|constructor]. split; [cbn; lia|]. unfold safe_integer.
    cbn. lia. }
  split; [exact reachable_drawn_session|]. split; [reflexivity|].
  split; [reflexivity|]. split; [exact Hwf|].
  apply (reload_restores_history (Some empty_store) drawn_session
           (store_with (JSON.stringify (history (state drawn_session))))
           [new_entry 2 mystery sample_env]).
  - exact reachable_drawn_session.
  - reflexivity.
  - reflexivity.
  - exact Hwf.
Defined.

(** X2. The program touches one key only: in every session reached from a
    host with a store, each other key of [localStorage] holds what it held
    when the page was loaded. *)
Theorem other_keys_untouched
    (store0 : Storage) (x : Session) (k : jsstring) :
  reachable (Some store0) x ->
  k <> HISTORY_STORAGE_KEY ->
  exists store, window x = Some store /\ getItem k store = getItem k store0.
Proof.
  intros Hreach Hk.
  assert (Heffect : forall h store,
            getItem k (setItem HISTORY_STORAGE_KEY h store) = getItem k store).
  { intros h store. unfold getItem, setItem. now apply lookup_insert_ne. }
  induction Hreach as [|x ev env y _ (store & Hw & Hget) Hstep].
  { eexists. split; [reflexivity|]. apply Heffect. }
  destruct (dispatch_cases ev env x y Hstep)
    as [(_ & _ & ->) | [(card & reward & items & _ & _ & _ & ->) | [(i & _ & _ & ->) | [(_ & ->) | (_ & ->)]]]];
    cbn [guided drawn chosen closed cleared window]; rewrite Hw;
    try (exists store; split; [reflexivity | exact Hget]).
  - eexists. split; [reflexivity|]. now rewrite Heffect.
  - eexists. split; [reflexivity|]. rewrite Heffect.
    unfold getItem, removeItem. rewrite lookup_delete_ne by congruence.
    exact Hget.
Qed.

Lemma reachable_busy_session : reachable (Some busy_store) busy_session.
Proof.
  apply (reachable_dispatch _ (chosen 2 (mount (Some busy_store)))
           draw sample_env); [|reflexivity].
  apply (reachable_dispatch _ (mount (Some busy_store))
           (selectCard 2) sample_env); [|reflexivity].
  apply reachable_mount.
Defined.

Lemma other_keys_untouched_witness :
  reachable (Some busy_store) busy_session /\
  js "theme" <> HISTORY_STORAGE_KEY /\
  exists store, window busy_session = Some store /\
    getItem (js "theme") store = getItem (js "theme") busy_store.
Proof.
  split; [exact reachable_busy_session|]. split; [discriminate|].
  apply (other_keys_untouched busy_store busy_session (js "theme")).
  - exact reachable_busy_session.
  - discriminate.
Defined.

(** X3. A stored value that cannot be read is lost at load: when the key
    is absent, or holds the empty string or a text [JSON.parse] rejects,
    mounting starts from the empty log and the effect writes the text of the
    empty array under the key, over what was there. *)
Theorem mount_replaces_unreadable_value (store : Storage) :
  match getItem HISTORY_STORAGE_KEY store with
  | None => True
  | Some stored => JSON.parse stored = None
  end ->
  history (state (mount (Some store))) = JArr [] /\
  window (mount (Some store)) =
    Some (setItem HISTORY_STORAGE_KEY (js "[]") store) /\
  forall store', window (mount (Some store)) = Some store' ->
    getItem HISTORY_STORAGE_KEY store' = Some (js "[]").
Proof.
  intros Hstored.
  assert (Hinit : initial_history (Some store) = JArr [])
    by now apply initial_history_default.
  cbn [mount state initial_state history window]. rewrite Hinit.
  split; [reflexivity|]. split; [reflexivity|].
  intros store' [= <-]. unfold getItem, setItem. apply lookup_insert_eq.
Qed.

Lemma mount_replaces_unreadable_value_witness :
  match getItem HISTORY_STORAGE_KEY unreadable_store with
  | None => True
  | Some stored => JSON.parse stored = None
  end /\
  history (state (mount (Some unreadable_store))) = JArr [] /\
  window (mount (Some unreadable_store)) =
    Some (setItem HISTORY_STORAGE_KEY (js "[]") unreadable_store) /\
  forall store', window (mount (Some unreadable_store)) = Some store' ->
    getItem HISTORY_STORAGE_KEY store' = Some (js "[]").
Proof.
  split; [reflexivity|].
  apply (mount_replaces_unreadable_value unreadable_store). reflexivity.
Defined.

(** ** The state machine *)

(** X4. The drawing flag is never seen set: in every reachable session
    [isDrawing] is false, since [handleDraw] queues [setIsDrawing(true)] and
    [setIsDrawing(false)] in one batch. So the draw button always reads
    [Open Card], and it is disabled exactly when no card is selected. *)
Theorem drawing_flag_never_observed (w : Window) (x : Session) :
  reachable w x ->
  isDrawing (state x) = false /\
  draw_button_label (state x) = js "Open Card" /\
  (draw_button_disabled (state x) = true <-> selectedCard (state x) = None).
Proof.
  intros Hreach.
  assert (Hflag : isDrawing (state x) = false).
  { induction Hreach as [|x ev env y _ IH Hstep]; [reflexivity|].
    destruct (dispatch_cases ev env x y Hstep)
      as [(_ & _ & ->) | [(card & reward & items & _ & _ & _ & ->) | [(i & _ & _ & ->) | [(_ & ->) | (_ & ->)]]]];
      try exact IH; reflexivity. }
  unfold draw_button_label, draw_button_disabled. rewrite Hflag.
  split; [reflexivity|]. split; [reflexivity|].
  destruct (selectedCard (state x)); cbn; split; congruence.
Qed.

Lemma drawing_flag_never_observed_witness :
  reachable (Some empty_store) drawn_session /\
  isDrawing (state drawn_session) = false /\
  draw_button_label (state drawn_session) = js "Open Card" /\
  (draw_button_disabled (state drawn_session) = true <->
   selectedCard (state drawn_session) = None).
Proof.
  split; [exact reachable_drawn_session|].
  apply (drawing_flag_never_observed (Some empty_store) drawn_session).
  exact reachable_drawn_session.
Defined.

(** X5. No event clears the selection: after any event on a session with
    card [card] selected, a card is still selected, the same one unless the
    event was [selectCard] on another. *)
Theorem selection_never_cleared
    (ev : Event) (env : Env) (x y : Session) (card : Z) :
  selectedCard (state x) = Some card ->
  dispatch ev env x = Some y ->
  selectedCard (state y) = Some card \/
  exists index, ev = selectCard index /\ index <> card /\
                selectedCard (state y) = Some index.
Proof.
  intros Hsel Hstep.
  destruct (dispatch_cases ev env x y Hstep)
    as [(_ & _ & ->) | [(c & reward & items & _ & _ & _ & ->) | [(i & -> & Hi & ->) | [(_ & ->) | (_ & ->)]]]];
    try (left; exact Hsel).
  right. exists i. repeat split. congruence.
Qed.

Lemma selection_never_cleared_witness :
  selectedCard (state selected_session) = Some 2%Z /\
  dispatch clearHistory sample_env selected_session =
    Some (cleared selected_session) /\
  (selectedCard (state (cleared selected_session)) = Some 2%Z \/
   exists index, clearHistory = selectCard index /\ index <> 2%Z /\
                 selectedCard (state (cleared selected_session)) = Some index).
Proof.
  split; [reflexivity|]. split; [reflexivity|].
  apply (selection_never_cleared clearHistory sample_env selected_session
           (cleared selected_session) 2); reflexivity.
Defined.

Lemma drawn_reward_in env reward :
  drawn_reward env = Some reward -> In reward rewards.
Proof.
  unfold drawn_reward, array_get.
  destruct (_ <? 0)%Z; [discriminate|].
  intros H. apply list_elem_of_lookup_2 in H. now apply list_elem_of_In.
Qed.

Lemma cards_range card : In card cards <-> (0 <= card <= 3)%Z.
Proof. cbn. lia. Qed.

Lemma clickable_card s index :
  clickable s (selectCard index) = true -> In index cards.
Proof.
  cbn [clickable]. rewrite existsb_exists.
  intros (c & Hc & Heq). apply Z.eqb_eq in Heq. now subst.
Qed.

Lemma clicked_coherent w x : clicked w x -> coherent (state x).
Proof.
  induction 1 as [|x ev env y _ IH Hclick Hstep].
  { repeat split. }
  destruct (dispatch_cases ev env x y Hstep)
    as [(-> & Hsel & ->) | [(card & reward & items & Hsel & Hr & _ & ->) |
        [(i & -> & _ & ->) | [(_ & ->) | (_ & ->)]]]].
  - cbn [clickable] in Hclick. unfold draw_button_disabled in Hclick.
    rewrite Hsel, orb_true_r in Hclick. discriminate.
  - unfold coherent in *. cbn [drawn state selectedCard]. rewrite Hsel in *.
    split; [tauto|]. right. exists reward.
    split; [now apply (drawn_reward_in env)|]. split; reflexivity.
  - unfold coherent. cbn [chosen state selectedCard].
    split; [now apply (clickable_card (state x))|]. left. split; reflexivity.
  - unfold coherent in *. cbn [closed state selectedCard statusMessage
                                 currentReward isModalOpen].
    destruct (selectedCard (state x)); tauto.
  - exact IH.
Qed.

(** X6. Under clicks the status line, the selection and the current reward
    agree: with no card selected the page shows the opening message, no
    reward and a closed modal flag; with card [c] selected, [c] is one of the
    four cards and either the guidance message with no reward, or a reward of
    the catalog with the message that names card [c + 1]. The draw button is
    disabled while nothing is selected, so the message of [handleDraw] for
    that case is never shown. *)
Theorem clicks_keep_page_coherent (w : Window) (x : Session) :
  clicked w x ->
  coherent (state x) /\
  statusMessage (state x) <> js "Choose a card first to start the draw.".
Proof.
  intros Hclicked. pose proof (clicked_coherent w x Hclicked) as Hc.
  split; [exact Hc|]. unfold coherent in Hc.
  destruct (selectedCard (state x)) as [card|].
  - destruct Hc as (_ & [(-> & _) | (reward & _ & _ & ->)]); discriminate.
  - destruct Hc as (-> & _). discriminate.
Qed.

Lemma clicked_drawn_session : clicked (Some empty_store) drawn_session.
Proof.
  apply (clicked_dispatch _ (chosen 2 (mount (Some empty_store)))
           draw sample_env); [|reflexivity|reflexivity].
  apply (clicked_dispatch _ (mount (Some empty_store))
           (selectCard 2) sample_env); [|reflexivity|reflexivity].
  apply clicked_mount.
Defined.

Lemma clicks_keep_page_coherent_witness :
  clicked (Some empty_store) drawn_session /\
  coherent (state drawn_session) /\
  statusMessage (state drawn_session) <>
    js "Choose a card first to start the draw.".
Proof.
  split; [exact clicked_drawn_session|].
  apply (clicks_keep_page_coherent (Some empty_store) drawn_session).
  exact clicked_drawn_session.
Defined.

(** X7. Whatever events are raised, the current reward is null or one of
    the four rewards of the catalog, and a reward is current, or the modal
    flag set, only while a card is selected. *)
Theorem reward_from_catalog (w : Window) (x : Session) :
  reachable w x ->
  (forall reward, currentReward (state x) = Some reward ->
     In reward rewards /\ selectedCard (state x) <> None) /\
  (isModalOpen (state x) = true -> selectedCard (state x) <> None).
Proof.
  induction 1 as [|x ev env y _ [IHr IHm] Hstep].
  { split; [intros reward | ]; discriminate. }
  destruct (dispatch_cases ev env x y Hstep)
    as [(_ & _ & ->) | [(card & reward & items & Hsel & Hr & _ & ->) |
        [(i & _ & _ & ->) | [(_ & ->) | (_ & ->)]]]];
    cbn [guided drawn chosen closed cleared state selectedCard currentReward
         isModalOpen]; try (split; assumption).
  - rewrite Hsel. split; [|discriminate].
    intros r [= <-]. split; [now apply (drawn_reward_in env) | discriminate].
  - split; [intros r|]; discriminate.
  - split; [assumption | discriminate].
Qed.

Lemma reward_from_catalog_witness :
  reachable (Some empty_store) drawn_session /\
  (forall reward, currentReward (state drawn_session) = Some reward ->
     In reward rewards /\ selectedCard (state drawn_session) <> None) /\
  (isModalOpen (state drawn_session) = true ->
   selectedCard (state drawn_session) <> None).
Proof.
  split; [exact reachable_drawn_session|].
  apply (reward_from_catalog (Some empty_store) drawn_session).
  exact reachable_drawn_session.
Defined.

(** ** Draws *)








Lemma recorded_new_entry card reward env :
  In card cards -> In reward rewards -> recorded (new_entry card reward env).
Proof.
  intros Hcard Hreward. apply cards_range in Hcard. split.
  - cbn [new_entry HistoryEntry.cardNumber]. lia.
  - exists reward. repeat split. exact Hreward.
Qed.

(** X10. Clicks record well-formed entries only: started from a log of
    entries that each name a card of 1 to 4 and the title and icon of a
    catalog reward (the empty log included), every session reached by clicks
    holds such a log. *)
Theorem clicks_record_catalog_entries
    (w : Window) (x : Session) (l0 : list HistoryEntry.t) :
  initial_history w = history_json l0 ->
  Forall recorded l0 ->
  clicked w x ->
  exists l, history (state x) = history_json l /\ Forall recorded l.
Proof.
  intros Hinit Hl0 Hclicked.
  induction Hclicked as [|x ev env y Hx (l & Hl & Hrec) Hclick Hstep].
  { now exists l0. }
  pose proof (clicked_coherent w x Hx) as Hco.
  destruct (dispatch_cases ev env x y Hstep)
    as [(_ & _ & ->) | [(card & reward & items & Hsel & Hr & Hs & ->) |
        [(i & _ & _ & ->) | [(_ & ->) | (_ & ->)]]]];
    try (now exists l).
  - rewrite Hl in Hs. apply history_json_items in Hs as ->.
    exists (take HISTORY_LIMIT (new_entry card reward env :: l)).
    split; [apply history_json_cons|].
    apply Forall_take. constructor; [|exact Hrec].
    unfold coherent in Hco. rewrite Hsel in Hco.
    apply recorded_new_entry; [tauto | now apply (drawn_reward_in env)].
  - exists []. split; [reflexivity | constructor].
Qed.

Lemma clicks_record_catalog_entries_witness :
  initial_history (Some empty_store) = history_json [] /\
  Forall recorded [] /\
  clicked (Some empty_store) drawn_session /\
  exists l, history (state drawn_session) = history_json l /\
            Forall recorded l.
Proof.
  split; [reflexivity|]. split; [constructor|].
  split; [exact clicked_drawn_session|].
  apply (clicks_record_catalog_entries (Some empty_store) drawn_session []).
  - reflexivity.
  - constructor.
  - exact clicked_drawn_session.
Defined.

Lemma number_prefix z t :
  exists neg d,
    Z.to_int z = signed neg d /\
    read_sign (number_to_string z ++ ch "-" :: t) =
      (neg, uint_units d ++ ch "-" :: t) /\
    read_digits (uint_units d ++ ch "-" :: t) = (d, ch "-" :: t).
Proof.
  assert (Hdigits : forall d,
            read_digits (uint_units d ++ ch "-" :: t) = (d, ch "-" :: t))
    by (intros d; now apply read_digits_units).
  unfold number_to_string. destruct z as [|p|p]; cbn [Z.to_int].
  - exists false, (Decimal.D0 Decimal.Nil).
    split; [reflexivity|]. split; [reflexivity | apply Hdigits].
  - exists false, (Pos.to_uint p). split; [reflexivity|]. split; [|apply Hdigits].
    apply read_sign_digits, Unsigned.to_uint_nonnil.
  - exists true, (Pos.to_uint p).
    split; [reflexivity|]. split; [reflexivity | apply Hdigits].
Qed.

(** X11. The id of an entry determines the two host values it is built
    from: two entries get the same id only when [Date.now()] returned the same
    number and [Math.random().toString(16).slice(2)] the same string for
    both. *)
Theorem entry_id_injective
    (card card' : Z) (reward reward' : Reward.t) (env env' : Env) :
  HistoryEntry.id (new_entry card reward env) =
  HistoryEntry.id (new_entry card' reward' env') <->
  Date_now_id env = Date_now_id env' /\
  slice_from 2 (Math_random_hex env) = slice_from 2 (Math_random_hex env').
Proof.
  cbn [new_entry HistoryEntry.id]. split; [|now intros [-> ->]].
  change (js "-" ++ ?t) with (ch "-" :: t).
  set (t := slice_from 2 (Math_random_hex env)).
  set (t' := slice_from 2 (Math_random_hex env')).
  intros Heq.
  destruct (number_prefix (Date_now_id env) t) as (neg & d & Hz & Hsign & Hd).
  destruct (number_prefix (Date_now_id env') t')
    as (neg' & d' & Hz' & Hsign' & Hd').
  rewrite Heq, Hsign' in Hsign.
  pose proof (f_equal fst Hsign) as Hneg. cbn [fst] in Hneg. subst neg'.
  pose proof (f_equal snd Hsign) as Hunits. cbn [snd] in Hunits.
  rewrite Hunits, Hd in Hd'.
  pose proof (f_equal fst Hd') as Hdd. cbn [fst] in Hdd. subst d'.
  pose proof (f_equal snd Hd') as Htt. cbn [snd] in Htt.
  assert (Ht : t = t') by congruence.
  split; [|exact Ht].
  rewrite <- (DecimalZ.of_to (Date_now_id env)),
          <- (DecimalZ.of_to (Date_now_id env')).
  now rewrite Hz, Hz'.
Qed.
